(** * web-scraper-toolkit: the fetch / paginate / checkpoint core

    A shallow embedding of [reddit_scraper.py] and [market_scraper.py].

    - Python values are modelled by the data the code inspects: JSON values
      as an inductive type, set members as hashable keys, naive [datetime]s
      as integers (microseconds), integer durations in seconds.
    - The network is a script of replies that [session.get] consumes one by
      one; once the script is exhausted every request fails with a
      connection error.  A run that ends has consumed finitely many replies,
      and a run cut after finitely many replies leaves [posts] and
      [seen_ids] as they were at the cut, so the script loses no state the
      code can reach.
    - Effects ([asyncio.sleep], requests, file writes) are recorded, in
      order, in a trace of events.  Log lines and the randomly chosen
      [User-Agent] are not recorded; a random delay is recorded with the
      bounds given to [random.uniform], not with the value drawn.
    - An uncaught Python exception is the [Raised] outcome of a method.
      The exceptions the code can meet on what the server sends and on
      the dates it is given are modelled; a file system that refuses a
      write, a cancelled task and an interpreter out of memory are not.
    - Numbers are integers: timestamps are whole seconds. *)

From Stdlib Require Import ZArith List Lia String QArith Sorted Zwf.
From stdpp Require Import base gmap sets list strings.
From Equations Require Import Equations.
Import ListNotations.
Local Open Scope string_scope.
Local Open Scope Z_scope.

(** ** Python values *)
Module Py.

(** A hashable scalar as a set member: [None], a number, a string.
    Python's [True == 1] and [False == 0], so booleans are numbers here. *)
Inductive Key := KNone | KNum (z : Z) | KStr (s : string).

#[global] Instance Key_eq_dec : EqDecision Key.
Proof. solve_decision. Defined.

Definition Key_enc (k : Key) : unit + (Z + string) :=
  match k with KNone => inl tt | KNum z => inr (inl z) | KStr s => inr (inr s) end.

Definition Key_dec (x : unit + (Z + string)) : Key :=
  match x with inl _ => KNone | inr (inl z) => KNum z | inr (inr s) => KStr s end.

#[global] Instance Key_countable : Countable Key.
Proof. apply (inj_countable' Key_enc Key_dec). by intros []. Defined.

(** What [json.load] returns (numbers are integers here). *)
#[warnings="-register-all"]
Inductive json :=
| JNull
| JBool (b : bool)
| JNum (z : Z)
| JStr (s : string)
| JArr (items : list json)
| JObj (members : list (string * json)).

(** [d.get(k)] on a parsed object: the last binding of a repeated key wins,
    as in [json.load]. *)
Fixpoint dict_get (k : string) (members : list (string * json)) : option json :=
  match members with
  | [] => None
  | (k', v) :: rest =>
      match dict_get k rest with
      | Some v' => Some v'
      | None => if String.eqb k k' then Some v else None
      end
  end.

(** Naive [datetime]: microseconds on the proleptic Gregorian calendar,
    counted from 1970-01-01 00:00. *)
Definition datetime := Z.

Definition day_us : Z := 86400 * 1000000.

(** [timedelta(days=n)] *)
Definition timedelta_days (n : Z) : Z := n * day_us.

(** Days from 1970-01-01 to the civil date [y]-[m]-[d]. *)
Definition days_from_civil (y m d : Z) : Z :=
  let y' := if m <=? 2 then y - 1 else y in
  let era := y' / 400 in
  let yoe := y' - era * 400 in
  let mp := (m + 9) mod 12 in
  let doy := (153 * mp + 2) / 5 + d - 1 in
  let doe := yoe * 365 + yoe / 4 - yoe / 100 + doy in
  era * 146097 + doe - 719468.

(** [datetime(y, m, d)], also what [strptime(s, '%Y-%m-%d')] yields. *)
Definition datetime_ymd (y m d : Z) : datetime := days_from_civil y m d * day_us.

(** [datetime.min] and [datetime.max]: 0001-01-01 00:00 and the last
    microsecond of the year 9999. *)
Definition datetime_min : datetime := datetime_ymd 1 1 1.
Definition datetime_max : datetime := datetime_ymd 10000 1 1 - 1.

(** [d + timedelta(days=n)]: [None] for the [OverflowError] Python raises
    when the sum leaves [datetime.min .. datetime.max]. *)
Definition add_days (d : datetime) (n : Z) : option datetime :=
  let sum := d + timedelta_days n in
  if (datetime_min <=? sum) && (sum <=? datetime_max) then Some sum else None.

End Py.
Export Py.

(** ** The network and the trace of effects *)
Module Net.

(** The [Retry-After] header as [int(resp.headers.get('Retry-After', 60))]
    sees it: absent, text that [int] accepts, or any other text. *)
Inductive RetryAfter := RaAbsent | RaInt (n : Z) | RaOther (raw : string).

(** An HTTP response; [body = None] when reading or decoding it raises. *)
Record Response (B : Type) := mkResponse {
  status : Z;
  retry_after : RetryAfter;
  body : option B }.
Arguments mkResponse {B} _ _ _.
Arguments status {B} _.
Arguments retry_after {B} _.
Arguments body {B} _.

(** What [session.get] does: answers, times out, or fails otherwise. *)
Inductive Reply (B : Type) :=
| Resp (r : Response B)
| TimedOut
| Failed.
Arguments Resp {B} _.
Arguments TimedOut {B}.
Arguments Failed {B}.

(** A query-string value. [PQuery a b] is the text
    [(and timestamp:a..b)]. *)
Inductive Param := PNum (n : Z) | PStr (s : string) | PQuery (a b : Z).

Record Url := mkUrl { base_url : string; query : list (string * Param) }.

Section World.
Context {B D : Type}.

Inductive Event :=
| EvGet (u : Url)                  (* session.get(u, ...) *)
| EvSleep (secs : Z)               (* asyncio.sleep(secs) *)
| EvRandomSleep (lo hi : Q)        (* asyncio.sleep(random.uniform(lo, hi)) *)
| EvWrite (path : string) (doc : D). (* open(path, 'w') and write doc *)

Record World := mkWorld { net : list (Reply B); trace : list Event }.

Definition emit (e : Event) (w : World) : World :=
  {| net := net w; trace := trace w ++ [e] |}.

Definition sleep (secs : Z) (w : World) : World := emit (EvSleep secs) w.

Definition random_sleep (lo hi : Q) (w : World) : World :=
  emit (EvRandomSleep lo hi) w.

Definition write_file (path : string) (doc : D) (w : World) : World :=
  emit (EvWrite path doc) w.

(** [session.get(url)]: the next reply of the script. *)
Definition session_get (u : Url) (w : World) : Reply B * World :=
  match net w with
  | [] => (Failed, emit (EvGet u) w)
  | r :: rest => (r, {| net := rest; trace := trace w ++ [EvGet u] |})
  end.

End World.
Arguments Event : clear implicits.
Arguments World : clear implicits.

End Net.
Export Net.

(** ** reddit_scraper.py *)
Module Reddit.

(** The dict built by [_extract_post_data], by the fields the scraper reads:
    ['id'] ([None] when the listing has none), ['created_utc'] ([None] when
    the listing has none) and, standing for the fourteen other fields,
    ['title']. *)
Record Post := mkPost {
  id : Key;
  created_utc : option Z;
  title : string }.

#[global] Instance Post_eq_dec : EqDecision Post.
Proof. solve_decision. Defined.

(** The ['created_utc'] member of a listing child: the key is missing, or
    its value is one [datetime.fromtimestamp] refuses ([null], text, out of
    range), or a number. *)
Inductive CreatedUtc := TsMissing | TsRefused | TsNum (ts : Z).

(** One element of ['children']: something [.get] cannot be called on (or
    whose ['data'] is such), or a thing whose ['data'] holds the fields;
    its ['id'] is a value a set can hold ([None] when the key is missing),
    or a list or an object, which [in] refuses with [TypeError]. *)
Inductive Child :=
| NotAThing
| Thing (cid : Key) (ccreated : CreatedUtc) (ctitle : string)
| ThingUnhashable (ccreated : CreatedUtc) (ctitle : string).

(** The value of [resp.json()], by what the loops of the drivers do with
    it:
    - [Falsy]: [null], [false], [0], an empty string, list or object;
    - [Listing children after]: an object whose [data.children] the loop
      goes through and whose [data.after] is [after] ([None] or the empty
      text when it is missing or falsy, else the text [urlencode] makes of
      it);
      [children] are the elements of a list, or one [NotAThing] for each
      character of a string and each key of an object; a missing ['data']
      or ['children'], and a falsy ['children'], are [Listing [] _];
    - [Malformed]: any other truthy body: it is no object, or its ['data']
      is no object, or its ['children'] is truthy and cannot be iterated (a
      number, [true]).  Reading it raises [AttributeError] or [TypeError]
      in the driver, outside any [try]. *)
Inductive Payload :=
| Falsy
| Listing (children : list Child) (after : option string)
| Malformed.

(** What the scraper writes to disk. *)
Inductive Doc :=
| DocCheckpoint (seen : gset Key) (posts_count : nat)
| DocJson (rows : list Post)
| DocTruncated
| DocCsv (rows : list Post).

Abbreviation RWorld := (World Payload Doc).
Abbreviation REvent := (Event Doc).

(** The attributes of [self] that [__init__] sets and nothing changes. *)
Record Config := mkConfig {
  subreddit : string;
  start_date : datetime;
  end_date : datetime;
  output_format : string;
  output_file : string;
  delay_min : Q;
  delay_max : Q;
  checkpoint_file : string }.

(** The attributes of [self] the scraper updates: [self.posts] and
    [self.seen_ids]. *)
Record Mem := mkMem {
  posts : list Post;
  seen_ids : gset Key }.

(** How a method ends: it returns [a], or an exception leaves it; either
    way [self] and the world are as the method left them. *)
Inductive Outcome (A : Type) :=
| Returned (a : A) (m : Mem) (w : RWorld)
| Raised (m : Mem) (w : RWorld).
Arguments Returned {A} _ _ _.
Arguments Raised {A} _ _.

(** *** Checkpoint *)

(** The checkpoint file as [_load_checkpoint] finds it: no such file, a
    file that cannot be opened or read, or its text, which [json.load]
    parses ([Some]) or rejects ([None]). *)
Inductive CheckpointFile :=
| Absent
| Unreadable
| Contents (parsed : option json).

(** The outcome of a block that may raise. *)
Inductive Exc (A : Type) := Ok (a : A) | Exn.
Arguments Ok {A} _.
Arguments Exn {A}.

(** [len(x)] succeeds on lists, strings and objects only. *)
Definition py_len (x : json) : Exc nat :=
  match x with
  | JArr items => Ok (length items)
  | JStr s => Ok (String.length s)
  | JObj members => Ok (length members)
  | _ => Exn
  end.

(** A value as a set member; lists and objects are unhashable. *)
Definition hash_key (x : json) : Exc Key :=
  match x with
  | JNull => Ok KNone
  | JBool b => Ok (KNum (if b then 1 else 0))
  | JNum z => Ok (KNum z)
  | JStr s => Ok (KStr s)
  | JArr _ | JObj _ => Exn
  end.

Fixpoint set_of_items (items : list json) : Exc (gset Key) :=
  match items with
  | [] => Ok ∅
  | x :: rest =>
      match hash_key x, set_of_items rest with
      | Ok k, Ok s => Ok ({[k]} ∪ s)
      | _, _ => Exn
      end
  end.

Fixpoint chars (s : string) : list string :=
  match s with
  | EmptyString => []
  | String c rest => String c EmptyString :: chars rest
  end.

(** [set(x)]: the members of a list, the characters of a string, the keys
    of an object. *)
Definition py_set (x : json) : Exc (gset Key) :=
  match x with
  | JArr items => set_of_items items
  | JStr s => Ok (list_to_set (KStr <$> chars s))
  | JObj members => Ok (list_to_set (KStr <$> members.*1))
  | _ => Exn
  end.

(** [data.get('seen_ids', [])]; [data] must be an object. *)
Definition get_seen_ids (data : json) : Exc json :=
  match data with
  | JObj members =>
      match dict_get "seen_ids" members with
      | Some v => Ok v
      | None => Ok (JArr [])
      end
  | _ => Exn
  end.

Definition default_checkpoint : json :=
  JObj [("seen_ids", JArr []); ("last_timestamp", JNull)].

(** The [try] block of [_load_checkpoint]: [Ok None] when it falls through
    the [if], [Ok (Some (data, ids))] when it reaches [return data] having
    assigned [ids] to [self.seen_ids], [Exn] when a statement raises. *)
Definition load_checkpoint_try (f : CheckpointFile) : Exc (option (json * gset Key)) :=
  match f with
  | Absent => Ok None
  | Unreadable => Exn
  | Contents None => Exn
  | Contents (Some data) =>
      match get_seen_ids data with
      | Exn => Exn
      | Ok ids =>
          match py_len ids with
          | Exn => Exn
          | Ok _ =>
              match py_set ids with
              | Exn => Exn
              | Ok s => Ok (Some (data, s))
              end
          end
      end
  end.

(** [_load_checkpoint]: the returned dict and [self.seen_ids] afterwards. *)
Definition _load_checkpoint (f : CheckpointFile) (seen : gset Key) : Exc (json * gset Key) :=
  match load_checkpoint_try f with
  | Ok (Some (data, s)) => Ok (data, s)
  | Ok None => Ok (default_checkpoint, seen)
  | Exn => Ok (default_checkpoint, seen)   (* except Exception: warning *)
  end.

(** [__init__] with the dates already parsed: [self.posts = []],
    [self.seen_ids = set()], then [_load_checkpoint]. *)
Definition init (c : Config) (f : CheckpointFile) : Exc (json * Mem) :=
  match _load_checkpoint f ∅ with
  | Ok (data, s) => Ok (data, {| posts := []; seen_ids := s |})
  | Exn => Exn
  end.

(** [_save_checkpoint] ([last_timestamp], the time of writing, is left
    out of the document). *)
Definition _save_checkpoint (c : Config) (m : Mem) (w : RWorld) : RWorld :=
  write_file (checkpoint_file c) (DocCheckpoint (seen_ids m) (length (posts m))) w.

(** *** Fetching *)

(** [_delay] *)
Definition _delay (c : Config) (w : RWorld) : RWorld :=
  random_sleep (delay_min c) (delay_max c) w.

Definition max_retries : nat := 3.

(** [int(resp.headers.get('Retry-After', 60))] *)
Definition int_retry_after (ra : RetryAfter) : Exc Z :=
  match ra with
  | RaAbsent => Ok 60
  | RaInt n => Ok n
  | RaOther _ => Exn               (* ValueError *)
  end.

(** The body of [for attempt in range(max_retries)] in [_fetch_json], over
    the attempts still to make. *)
Fixpoint fetch_attempts (attempts : list nat) (url : Url) (w : RWorld)
  : option Payload * RWorld :=
  match attempts with
  | [] => (None, w)
  | _ :: later =>
      let '(reply, w1) := session_get url w in
      match reply with
      | Resp resp =>
          if status resp =? 200 then
            match body resp with
            | Some data => (Some data, w1)
            | None => fetch_attempts later url (sleep 5 w1) (* except Exception *)
            end
          else if status resp =? 429 then
            match int_retry_after (retry_after resp) with
            | Ok secs => fetch_attempts later url (sleep secs w1)
            | Exn => fetch_attempts later url (sleep 5 w1)   (* except Exception *)
            end
          else if status resp =? 403 then (None, w1)
          else fetch_attempts later url (sleep 5 w1)
      | TimedOut => fetch_attempts later url (sleep 10 w1)
      | Failed => fetch_attempts later url (sleep 5 w1)
      end
  end.

(** [_fetch_json] *)
Definition _fetch_json (url : Url) (w : RWorld) : option Payload * RWorld :=
  fetch_attempts (seq 0 max_retries) url w.

(** The seconds [_fetch_json] sleeps after a 429: the header's number, 60
    without the header, and the handler's 5 when [int] raises on it. *)
Definition rate_limit_wait (ra : RetryAfter) : Z :=
  match int_retry_after ra with
  | Ok secs => secs
  | Exn => 5
  end.

(** A successful fetch has consumed a reply of the script. *)
Lemma fetch_attempts_consumes attempts url w data w' :
  fetch_attempts attempts url w = (Some data, w') →
  (length (net w') < length (net w))%nat.
Proof.
  revert w. induction attempts as [|a later IH]; intros w; simpl; [done|].
  assert (Hlater : ∀ secs t rest,
    (length rest ≤ length (net w))%nat →
    fetch_attempts later url (sleep secs {| net := rest; trace := t |}) = (Some data, w') →
    (length (net w') < length (net w))%nat).
  { intros secs t rest Hle H. apply IH in H. simpl in H. lia. }
  unfold session_get, emit.
  destruct (net w) as [|r rest] eqn:Hnet; simpl in *.
  - apply Hlater. simpl. lia.
  - destruct r as [resp| |]; simpl.
    + destruct (status resp =? 200).
      * destruct (body resp); [|apply Hlater; lia].
        intros [= _ <-]. simpl. lia.
      * destruct (status resp =? 429).
        -- destruct (int_retry_after _); apply Hlater; lia.
        -- destruct (status resp =? 403); [done|]. apply Hlater; lia.
    + apply Hlater; lia.
    + apply Hlater; lia.
Qed.

(** *** Extraction and the two drivers *)

(** What [_extract_post_data] returns: [None], or the dict it built.  A
    [Post] holds an ['id'] a set can take; the dict whose ['id'] is a list
    or an object is kept apart, the caller only ever raises on it. *)
Inductive Extracted :=
| NoDict
| Dict (post : Post)
| DictUnhashableId.

(** [_extract_post_data]: [None] when building the dict raises, which is
    when [.get] cannot be called or [datetime.fromtimestamp] refuses the
    value of ['created_utc'] (a missing key is read as 0 there). *)
Definition _extract_post_data (child : Child) : Extracted :=
  match child with
  | NotAThing => NoDict
  | Thing cid TsRefused _ => NoDict
  | Thing cid TsMissing ctitle =>
      Dict {| id := cid; created_utc := None; title := ctitle |}
  | Thing cid (TsNum ts) ctitle =>
      Dict {| id := cid; created_utc := Some ts; title := ctitle |}
  | ThingUnhashable TsRefused _ => NoDict
  | ThingUnhashable _ _ => DictUnhashableId
  end.

Definition truthy (s : option string) : bool :=
  match s with
  | Some (String _ _) => true
  | _ => false
  end.

Section Drivers.

(** [datetime.fromtimestamp], the host's local time of a POSIX timestamp
    (applied to the values it accepts, see [CreatedUtc]), and
    [int(d.timestamp())], which the host computes, or refuses with an
    exception at the far ends of the calendar ([None]). *)
Variable fromtimestamp : Z → datetime.
Variable timestamp : datetime → option Z.

(** What one turn of [for child in children] does to [self]. *)
Inductive Visit :=
| Skipped
| Accepted (m' : Mem)
| Crashed.

(** The body of [for child in children], shared by both drivers up to the
    date test [in_range]. *)
Definition visit_child (in_range : datetime → bool) (m : Mem) (child : Child) : Visit :=
  match _extract_post_data child with
  | NoDict => Skipped
  | DictUnhashableId => Crashed     (* post['id'] not in self.seen_ids *)
  | Dict post =>
      if decide (id post ∈ seen_ids m) then Skipped
      else
        match created_utc post with
        | None => Crashed           (* datetime.fromtimestamp(None) *)
        | Some ts =>
            if in_range (fromtimestamp ts) then
              Accepted {| posts := posts m ++ [post];
                          seen_ids := {[id post]} ∪ seen_ids m |}
            else Skipped
        end
  end.

(** [self.start_date <= post_date <= self.end_date] *)
Definition in_date_range (c : Config) (post_date : datetime) : bool :=
  (start_date c <=? post_date) && (post_date <=? end_date c).

(** [start <= post_date < end] *)
Definition in_chunk (start end_ : datetime) (post_date : datetime) : bool :=
  (start <=? post_date) && (post_date <? end_).

(** [for child in children] of [scrape_old_reddit_pagination]; [None] when
    an exception leaves the loop. *)
Fixpoint page_children (c : Config) (children : list Child) (m : Mem)
    (count total_count : nat) : option (nat * nat) * Mem :=
  match children with
  | [] => (Some (count, total_count), m)
  | child :: rest =>
      match visit_child (in_date_range c) m child with
      | Skipped => page_children c rest m count total_count
      | Accepted m' => page_children c rest m' (count + 1) (total_count + 1)
      | Crashed => (None, m)
      end
  end.

(** [for child in children] of [_scrape_chunk]. *)
Fixpoint chunk_children (start end_ : datetime) (children : list Child) (m : Mem)
    (count : nat) : option nat * Mem :=
  match children with
  | [] => (Some count, m)
  | child :: rest =>
      match visit_child (in_chunk start end_) m child with
      | Skipped => chunk_children start end_ rest m count
      | Accepted m' => chunk_children start end_ rest m' (count + 1)
      | Crashed => (None, m)
      end
  end.

Definition listing_url (sub sort : string) : string :=
  ("https://old.reddit.com/r/" ++ sub ++ "/" ++ sort ++ "/.json")%string.

Definition opt_param (k : string) (v : option string) : list (string * Param) :=
  match v with
  | Some s => if truthy v then [(k, PStr s)] else []
  | None => []
  end.

(** [f"{base_url}?{urlencode(params)}"] of the pagination loop. *)
Definition page_url (base : string) (after time_filter : option string) : Url :=
  {| base_url := base;
     query := [("limit", PNum 100)] ++ opt_param "after" after
              ++ opt_param "t" time_filter |}.

(** A value together with the equation that names it, for the termination
    proofs of the loops below. *)
Definition inspect {A} (a : A) : {b : A | a = b} := exist _ a eq_refl.

(** The [while True] loop of [scrape_old_reddit_pagination] for one time
    filter; it ends with [total_count]. *)
Equations? paginate (c : Config) (base : string) (time_filter : option string)
    (after : option string) (count total_count : nat) (m : Mem) (w : RWorld)
    : Outcome nat by wf (length (net w)) lt :=
  paginate c base time_filter after count total_count m w
    with inspect (_fetch_json (page_url base after time_filter) w) => {
    | exist _ (None, w1) _ => Returned total_count m w1;
    | exist _ (Some Falsy, w1) _ => Returned total_count m w1;
    | exist _ (Some Malformed, w1) _ => Raised m w1;
    | exist _ (Some (Listing [] _), w1) _ => Returned total_count m w1;
    | exist _ (Some (Listing (child :: rest) after'), w1) Hfetch
        with page_children c (child :: rest) m count total_count => {
        | (None, m') => Raised m' w1;
        | (Some (count', total'), m') =>
            if truthy after' then
              let w2 := if (0 <? count')%nat && (count' mod 100 =? 0)%nat
                        then _save_checkpoint c m' w1 else w1 in
              paginate c base time_filter after' count' total' m' (_delay c w2)
            else Returned total' m' w1 } }.
Proof.
  apply fetch_attempts_consumes in Hfetch.
  subst w2. destruct (_ && _); simpl; lia.
Qed.

(** [time_filters] as [scrape_old_reddit_pagination] picks them. *)
Definition time_filters (sort : string) : list (option string) :=
  if (sort =? "top")%string || (sort =? "controversial")%string
  then [Some "month"; Some "year"; Some "all"]
  else [None].

(** [for time_filter in time_filters]: each turn sets [after = None] and
    [count = 0] and runs the [while True] loop. *)
Fixpoint for_time_filters (c : Config) (base : string) (filters : list (option string))
    (total_count : nat) (m : Mem) (w : RWorld) : Outcome nat :=
  match filters with
  | [] => Returned total_count m w
  | time_filter :: later =>
      match paginate c base time_filter None 0 total_count m w with
      | Returned total' m' w' => for_time_filters c base later total' m' w'
      | Raised m' w' => Raised m' w'
      end
  end.

(** [scrape_old_reddit_pagination] *)
Definition scrape_old_reddit_pagination (c : Config) (sort : string) (m : Mem) (w : RWorld)
  : Outcome nat :=
  for_time_filters c (listing_url (subreddit c) sort) (time_filters sort) 0 m w.

Definition search_url (sub : string) : string :=
  ("https://old.reddit.com/r/" ++ sub ++ "/search/.json")%string.

(** [f"{base_url}?{urlencode(params)}"] of [_scrape_chunk]. *)
Definition chunk_url (base : string) (start_ts end_ts : Z) (after : option string) : Url :=
  {| base_url := base;
     query := [("q", PQuery start_ts end_ts); ("restrict_sr", PStr "on");
               ("sort", PStr "new"); ("syntax", PStr "cloudsearch");
               ("limit", PNum 100)] ++ opt_param "after" after |}.

(** The [while True] loop of [_scrape_chunk], with the [start_ts] and
    [end_ts] computed before it; it ends with [count]. *)
Equations? chunk_pages (c : Config) (start end_ : datetime) (start_ts end_ts : Z)
    (after : option string) (count : nat) (m : Mem) (w : RWorld)
    : Outcome nat by wf (length (net w)) lt :=
  chunk_pages c start end_ start_ts end_ts after count m w
    with inspect (_fetch_json (chunk_url (search_url (subreddit c))
                                 start_ts end_ts after) w) => {
    | exist _ (None, w1) _ => Returned count m w1;
    | exist _ (Some Falsy, w1) _ => Returned count m w1;
    | exist _ (Some Malformed, w1) _ => Raised m w1;
    | exist _ (Some (Listing [] _), w1) _ => Returned count m w1;
    | exist _ (Some (Listing (child :: rest) after'), w1) Hfetch
        with chunk_children start end_ (child :: rest) m count => {
        | (None, m') => Raised m' w1;
        | (Some count', m') =>
            if truthy after' then
              chunk_pages c start end_ start_ts end_ts after' count' m' (_delay c w1)
            else Returned count' m' w1 } }.
Proof.
  apply fetch_attempts_consumes in Hfetch. simpl. lia.
Qed.

(** [_scrape_chunk]: [int(start.timestamp())] and [int(end.timestamp())]
    first, outside any [try], then the loop. *)
Definition _scrape_chunk (c : Config) (start end_ : datetime) (m : Mem) (w : RWorld)
  : Outcome nat :=
  match timestamp start with
  | None => Raised m w
  | Some start_ts =>
      match timestamp end_ with
      | None => Raised m w
      | Some end_ts => chunk_pages c start end_ start_ts end_ts None 0 m w
      end
  end.

(** [min(current_start + timedelta(days=chunk_days), self.end_date)]:
    the sum is computed first, and raises [OverflowError] past
    [datetime.max] whatever [self.end_date] is. *)
Definition chunk_end (chunk_days : positive) (current_start end_ : datetime)
  : option datetime :=
  match add_days current_start (Z.pos chunk_days) with
  | Some sum => Some (Z.min sum end_)
  | None => None
  end.

(** The time left to [end_] shrinks with every window; the order is
    well-founded, and kept unfolded so that the loops below compute. *)
#[local] Instance time_left_wf : WellFounded (Zwf 0) :=
  Acc_intro_generator 6 (Zwf_well_founded 0).

Lemma chunk_end_progress chunk_days current_start end_ current_end :
  current_start < end_ →
  chunk_end chunk_days current_start end_ = Some current_end →
  Zwf 0 (end_ - current_end) (end_ - current_start).
Proof.
  unfold Zwf, chunk_end, add_days, timedelta_days, day_us.
  destruct (_ && _); [|done]. intros Hlt [= <-]. lia.
Qed.

(** The [while current_start < self.end_date] loop of
    [scrape_search_api_chunked], for a chunk of [chunk_days] days. *)
Equations? chunk_loop (chunk_days : positive) (c : Config) (current_start : datetime)
    (total_count : nat) (m : Mem) (w : RWorld)
    : Outcome nat by wf (end_date c - current_start) (Zwf 0) :=
  chunk_loop chunk_days c current_start total_count m w
    with inspect (current_start <? end_date c) => {
    | exist _ false _ => Returned total_count m w;
    | exist _ true Hlt
        with inspect (chunk_end chunk_days current_start (end_date c)) => {
        | exist _ None _ => Raised m w;                 (* OverflowError *)
        | exist _ (Some current_end) Hend
            with _scrape_chunk c current_start current_end m w => {
            | Raised m' w' => Raised m' w';
            | Returned count m' w' =>
                chunk_loop chunk_days c current_end
                  (total_count + count) m' (_delay c w') } } }.
Proof.
  eapply chunk_end_progress; [|exact Hend]. lia.
Qed.

(** [scrape_search_api_chunked]: [chunk_days = 7]. *)
Definition scrape_search_api_chunked (c : Config) (m : Mem) (w : RWorld) : Outcome nat :=
  chunk_loop 7 c (start_date c) 0 m w.

(** The windows [(current_start, current_end)] the loop of
    [scrape_search_api_chunked] goes through, in order, and whether the
    loop then ends by the [OverflowError] of the next window's end
    ([true]) or because [current_start] has reached [end_] ([false]). *)
Equations? chunk_windows (chunk_days : positive) (current_start end_ : datetime)
    : list (datetime * datetime) * bool by wf (end_ - current_start) (Zwf 0) :=
  chunk_windows chunk_days current_start end_
    with inspect (current_start <? end_) => {
    | exist _ false _ => ([], false);
    | exist _ true Hlt
        with inspect (chunk_end chunk_days current_start end_) => {
        | exist _ None _ => ([], true);
        | exist _ (Some current_end) Hend =>
            ((current_start, current_end)
               :: (chunk_windows chunk_days current_end end_).1,
             (chunk_windows chunk_days current_end end_).2) } }.
Proof.
  all: eapply chunk_end_progress; [|exact Hend]; lia.
Qed.

(** One sort after another, as [scrape] calls them. *)
Fixpoint for_sorts (c : Config) (sorts : list string) (m : Mem) (w : RWorld)
  : Outcome unit :=
  match sorts with
  | [] => Returned tt m w
  | sort :: later =>
      match scrape_old_reddit_pagination c sort m w with
      | Returned _ m' w' => for_sorts c later m' w'
      | Raised m' w' => Raised m' w'
      end
  end.

(** [scrape]: the five listings, then the final checkpoint; it returns
    [len(self.posts)]. *)
Definition scrape (c : Config) (m : Mem) (w : RWorld) : Outcome nat :=
  match for_sorts c ["new"; "hot"; "top"; "rising"; "controversial"] m w with
  | Returned _ m' w' => Returned (length (posts m')) m' (_save_checkpoint c m' w')
  | Raised m' w' => Raised m' w'
  end.

End Drivers.

(** *** Output *)

(** The sort key [x['created_utc']] of a post whose timestamp is a number
    (the value given to [None] is never compared, see [sort_posts]). *)
Definition sort_key (p : Post) : Z := default 0 (created_utc p).

(** Insertion before the first element whose key is not greater: among
    equal keys the inserted post comes first. *)
Fixpoint insert_desc (p : Post) (sorted : list Post) : list Post :=
  match sorted with
  | [] => [p]
  | q :: rest =>
      if sort_key q <=? sort_key p then p :: q :: rest
      else q :: insert_desc p rest
  end.

(** The stable sort by decreasing key. *)
Fixpoint sort_desc (l : list Post) : list Post :=
  match l with
  | [] => []
  | p :: rest => insert_desc p (sort_desc rest)
  end.

Definition no_timestamp (p : Post) : bool :=
  match created_utc p with None => true | Some _ => false end.

(** [self.posts.sort(key=lambda x: x['created_utc'], reverse=True)]:
    [list.sort] is stable, also with [reverse=True]; comparing [None] with
    anything raises [TypeError], and every element of a list of two or more
    is compared at least once.  (When it raises, the order [list.sort]
    leaves behind is unspecified; the model keeps the list as it was.) *)
Definition sort_posts (l : list Post) : Exc (list Post) :=
  if (2 <=? length l)%nat && existsb no_timestamp l then Exn
  else Ok (sort_desc l).

(** [save_output] *)
Definition save_output (c : Config) (m : Mem) (w : RWorld) : Outcome unit :=
  match posts m with
  | [] => Returned tt m w                      (* "No posts to save" *)
  | _ :: _ =>
      match sort_posts (posts m) with
      | Exn => Raised m w
      | Ok sorted =>
          let m' := {| posts := sorted; seen_ids := seen_ids m |} in
          if (output_format c =? "json")%string then
            Returned tt m' (write_file (output_file c) (DocJson sorted) w)
          else if (output_format c =? "csv")%string then
            Returned tt m'
              (write_file (output_file c) (DocCsv sorted)
                 (write_file (output_file c) DocTruncated w))
          else Returned tt m' w
      end
  end.

(** The values [argparse] admits for [--format]. *)
Inductive FormatChoice := fmt_json | fmt_csv.

Definition format_name (f : FormatChoice) : string :=
  match f with fmt_json => "json" | fmt_csv => "csv" end.

(** The parsed command line, dates already read by [strptime]; [stamp] is
    the text of [int(time.time())] used in the default output name. *)
Record Args := mkArgs {
  arg_subreddit : string;
  arg_start_date : datetime;
  arg_end_date : datetime;
  arg_format : FormatChoice;
  arg_output : option string;
  arg_delay_min : Q;
  arg_delay_max : Q }.

Definition config_of_args (a : Args) (stamp : string) : Config :=
  {| subreddit := arg_subreddit a;
     start_date := arg_start_date a;
     end_date := arg_end_date a;
     output_format := format_name (arg_format a);
     output_file :=
       match arg_output a with
       | Some (String x y) => String x y
       | _ => (arg_subreddit a ++ "_" ++ stamp ++ "." ++ format_name (arg_format a))%string
       end;
     delay_min := arg_delay_min a;
     delay_max := arg_delay_max a;
     checkpoint_file := "checkpoint.json" |}.

(** [main]: build the scraper, [scrape], [save_output]. *)
Definition main (fromtimestamp : Z → datetime) (a : Args) (stamp : string)
    (f : CheckpointFile) (w : RWorld) : Outcome unit :=
  let c := config_of_args a stamp in
  match init c f with
  | Exn => Raised {| posts := []; seen_ids := ∅ |} w
  | Ok (_, m0) =>
      match scrape fromtimestamp c m0 w with
      | Raised m' w' => Raised m' w'
      | Returned _ m' w' => save_output c m' w'
      end
  end.

End Reddit.

(** ** market_scraper.py *)
Module Market.

Record Deal := mkDeal {
  market : string;
  deal_title : string;
  price : string;
  source : string }.

(** [CONFIG], by the entries the fetch loop and the writer read. *)
Record Config := mkConfig {
  output_file : string;
  max_retries : nat;
  base_delay : Q * Q;
  markets : list string;
  aggregator_url : string;
  direct_sok : string;
  direct_bim : string;
  direct_a101 : string }.

Definition CONFIG : Config :=
  {| output_file := "market_deals.json";
     max_retries := 3;
     base_delay := (2, 5)%Q;
     markets := ["a101"; "bim"; "sok"];
     aggregator_url := "https://aktuel-urunler.com";
     direct_sok := "https://kurumsal.sokmarket.com.tr/haftanin-firsatlari/firsatlar";
     direct_bim := "https://www.bim.com.tr/Categories/100/aktuel-urunler.aspx";
     direct_a101 := "https://www.a101.com.tr/afisler" |}.

(** The dict [scrape_all_markets] returns and [save_results] writes (the
    two clock readings of [metadata] are left out). *)
Record Results := mkResults {
  total_deals : nat;
  by_market : nat * nat * nat;     (* A101, BIM, SOK *)
  deals : list Deal }.

Abbreviation MWorld := (World string Results).

(** [random_delay] *)
Definition random_delay (cfg : Config) (w : MWorld) : MWorld :=
  random_sleep (base_delay cfg).1 (base_delay cfg).2 w.

Definition page (url : string) : Url := {| base_url := url; query := [] |}.

(** [fetch_html] *)
Equations? fetch_html (cfg : Config) (url : string) (retries : nat) (w : MWorld)
    : option string * MWorld by wf (max_retries cfg - retries)%nat lt :=
  fetch_html cfg url retries w
    with session_get (page url) (random_delay cfg w) => {
    | (Resp resp, w1) =>
        if status resp =? 200 then (body resp, w1)
        else if status resp =? 429 then
          match lt_dec retries (max_retries cfg) with
          | left Hlt =>
              fetch_html cfg url (retries + 1)
                (sleep ((Z.of_nat retries + 1) * 10) w1)
          | right _ => (None, w1)
          end
        else if status resp =? 403 then (None, w1)   (* "CloudFlare block" *)
        else (None, w1);
    | (TimedOut, w1) =>
        match lt_dec retries (max_retries cfg) with
        | left Hlt => fetch_html cfg url (retries + 1) w1
        | right _ => (None, w1)
        end;
    | (Failed, w1) => (None, w1) }.
Proof. all: lia. Qed.

Definition upper_ascii (a : Ascii.ascii) : Ascii.ascii :=
  let n := Ascii.nat_of_ascii a in
  if ((97 <=? n) && (n <=? 122))%nat then Ascii.ascii_of_nat (n - 32) else a.

(** [str.upper] on ASCII text. *)
Fixpoint upper (s : string) : string :=
  match s with
  | EmptyString => EmptyString
  | String a rest => String (upper_ascii a) (upper rest)
  end.

Section Scrapers.

(** The HTML readers: for a page, the [(title, price)] texts of those of
    its first product cards (50, for BIM 100) that have both. *)
Variable cards_aggregator : string → list (string * string).
Variable cards_sok : string → list (string * string).
Variable cards_bim : string → list (string * string).
Variable cards_a101 : string → list (string * string).

Definition deals_of (mkt src : string) (cards : list (string * string)) : list Deal :=
  (λ card, {| market := mkt; deal_title := card.1; price := card.2; source := src |})
    <$> cards.

(** [if not html]: no page, or an empty one. *)
Definition no_html (html : option string) : bool :=
  match html with
  | Some (String _ _) => false
  | _ => true
  end.

(** [for market in CONFIG["markets"]] of [scrape_aktuel_urunler]. *)
Fixpoint aggregator_markets (cfg : Config) (mkts : list string) (found : list Deal)
    (w : MWorld) : list Deal * MWorld :=
  match mkts with
  | [] => (found, w)
  | mkt :: later =>
      let url := (aggregator_url cfg ++ "/" ++ mkt ++ "-aktuel-urunler/")%string in
      let '(html, w1) := fetch_html cfg url 0 w in
      if no_html html then aggregator_markets cfg later found w1
      else
        aggregator_markets cfg later
          (found ++ deals_of (upper mkt) "aktuel-urunler.com"
                      (cards_aggregator (default "" html)))
          w1
  end.

(** [scrape_aktuel_urunler] *)
Definition scrape_aktuel_urunler (cfg : Config) (w : MWorld) : list Deal * MWorld :=
  aggregator_markets cfg (markets cfg) [] w.

(** [scrape_sok_direct], [scrape_bim_direct], [scrape_a101_direct] *)
Definition scrape_direct (cfg : Config) (url mkt src : string)
    (cards : string → list (string * string)) (w : MWorld) : list Deal * MWorld :=
  let '(html, w1) := fetch_html cfg url 0 w in
  if no_html html then ([], w1)
  else (deals_of mkt src (cards (default "" html)), w1).

Definition scrape_sok_direct cfg :=
  scrape_direct cfg (direct_sok cfg) "SOK" "kurumsal.sokmarket.com.tr" cards_sok.
Definition scrape_bim_direct cfg :=
  scrape_direct cfg (direct_bim cfg) "BIM" "bim.com.tr" cards_bim.
Definition scrape_a101_direct cfg :=
  scrape_direct cfg (direct_a101 cfg) "A101" "a101.com.tr" cards_a101.

Definition count_market (name : string) (ds : list Deal) : nat :=
  length (filter (λ d, market d = name) ds).

(** [scrape_all_markets] *)
Definition scrape_all_markets (cfg : Config) (w : MWorld) : Results * MWorld :=
  let '(aggregator_deals, w1) := scrape_aktuel_urunler cfg w in
  let '(all_deals, w2) :=
    match aggregator_deals with
    | [] =>
        let '(sok_deals, wa) := scrape_sok_direct cfg w1 in
        let '(bim_deals, wb) := scrape_bim_direct cfg wa in
        let '(a101_deals, wc) := scrape_a101_direct cfg wb in
        ((aggregator_deals ++ sok_deals ++ bim_deals ++ a101_deals)%list, wc)
    | _ :: _ => (aggregator_deals, w1)
    end in
  ({| total_deals := length all_deals;
      by_market := (count_market "A101" all_deals, count_market "BIM" all_deals,
                    count_market "SOK" all_deals);
      deals := all_deals |}, w2).

(** [save_results] *)
Definition save_results (cfg : Config) (data : Results) (w : MWorld) : MWorld :=
  write_file (output_file cfg) data w.

(** [main] *)
Definition main (cfg : Config) (w : MWorld) : Results * MWorld :=
  let '(results, w1) := scrape_all_markets cfg w in
  (results, save_results cfg results w1).

End Scrapers.

End Market.

Local Close Scope string_scope.

(** * The vocabulary of the statements *)

(** ** Traces, checkpoints, sorted rows *)

(** Every request of [evs] comes right after a random delay over
    [lo .. hi]. *)
Fixpoint gets_delayed {D} (lo hi : Q) (evs : list (Event D)) : Prop :=
  match evs with
  | [] => True
  | EvGet _ :: _ => False
  | EvRandomSleep lo' hi' :: EvGet _ :: rest =>
      lo' = lo ∧ hi' = hi ∧ gets_delayed lo hi rest
  | _ :: rest => gets_delayed lo hi rest
  end.

Definition is_random_sleep {D} (e : Event D) : bool :=
  match e with EvRandomSleep _ _ => true | _ => false end.

Definition is_get {D} (e : Event D) : bool :=
  match e with EvGet _ => true | _ => false end.

(** A value [set] accepts as a member. *)
Definition hashable (x : json) : bool :=
  match x with JArr _ | JObj _ => false | _ => true end.

(** The set member a value [set] accepts is ([True] is 1, [False] is 0). *)
Definition key_of (x : json) : Key :=
  match x with
  | JBool b => KNum (if b then 1 else 0)
  | JNum z => KNum z
  | JStr s => KStr s
  | _ => KNone
  end.

Definition is_write {D} (e : Event D) : bool :=
  match e with EvWrite _ _ => true | _ => false end.

(** [p] stands before [q] in a newest-first list. *)
Definition not_older (p q : Reddit.Post) : Prop :=
  Reddit.sort_key q ≤ Reddit.sort_key p.


(** ** What a run adds to the collection, and the windows of the
    chunked search *)

Section Vocabulary.
Import Reddit.

Variable fromtimestamp : Z → datetime.
Variable timestamp : datetime → option Z.

(** The identifiers of a list of posts, in order. *)
Definition ids (ps : list Post) : list Key := id <$> ps.

(** [m'] is [m] after the posts [added] were accepted, one after the
    other: they were appended to [posts], their identifiers were put into
    [seen_ids], no identifier among them was seen before or occurs twice,
    and each of them satisfies [P]. *)
Definition grows (P : Post → Prop) (m : Mem) (added : list Post) (m' : Mem) : Prop :=
  posts m' = posts m ++ added
  ∧ seen_ids m' = list_to_set (ids added) ∪ seen_ids m
  ∧ NoDup (ids added)
  ∧ (∀ k, k ∈ ids added → k ∉ seen_ids m)
  ∧ Forall P added.

(** [self], the world and the value a method ends with. *)
Definition mem_of {A} (o : Outcome A) : Mem :=
  match o with Returned _ m _ => m | Raised m _ => m end.

Definition world_of {A} (o : Outcome A) : RWorld :=
  match o with Returned _ _ w => w | Raised _ w => w end.

Definition value_of {A} (o : Outcome A) : option A :=
  match o with Returned a _ _ => Some a | Raised _ _ => None end.

(** A post whose timestamp, read in local time, passes the date test. *)
Definition dated (in_range : datetime → bool) (p : Post) : Prop :=
  ∃ ts, created_utc p = Some ts ∧ in_range (fromtimestamp ts) = true.

(** No identifier occurs twice in [posts], none of them was in [seen0],
    and [seen_ids] is [seen0] plus the identifiers of [posts]. *)
Definition collected_once (seen0 : gset Key) (m : Mem) : Prop :=
  NoDup (ids (posts m))
  ∧ (∀ k, k ∈ ids (posts m) → k ∉ seen0)
  ∧ seen_ids m = list_to_set (ids (posts m)) ∪ seen0.

(** The checkpoint document as [_save_checkpoint] writes it. *)
Definition checkpoint_doc (seen : list string) (stamp count : Z) : json :=
  JObj [("seen_ids"%string, JArr (JStr <$> seen));
        ("last_timestamp"%string, JNum stamp);
        ("posts_count"%string, JNum count)].


(** The windows follow one another from [from] to [to]: each starts where
    the one before it ended. *)
Fixpoint chained (from to : datetime) (ws : list (datetime * datetime)) : Prop :=
  match ws with
  | [] => from = to
  | (s, e) :: rest => s = from ∧ chained e to rest
  end.

(** The chunked driver as a loop over a list of windows: [_scrape_chunk]
    on each, then [_delay]; an exception ends it, and so does, after the
    last window, the overflow of the next window's end when [overflows]. *)
Fixpoint for_windows (c : Config) (ws : list (datetime * datetime)) (overflows : bool)
    (total_count : nat) (m : Mem) (w : RWorld) : Outcome nat :=
  match ws with
  | [] => if overflows then Raised m w else Returned total_count m w
  | (s, e) :: rest =>
      match _scrape_chunk fromtimestamp timestamp c s e m w with
      | Raised m' w' => Raised m' w'
      | Returned count m' w' =>
          for_windows c rest overflows (total_count + count) m' (_delay c w')
      end
  end.

End Vocabulary.

(** Turns the boolean tests the loops leave in the context into
    inequalities. *)
Ltac ltb_facts :=
  repeat match goal with
  | H : (?a <? ?b) = true |- _ =>
      lazymatch goal with
      | _ : a < b |- _ => fail
      | _ => pose proof (proj1 (Z.ltb_lt a b) H)
      end
  | H : (?a <? ?b) = false |- _ =>
      lazymatch goal with
      | _ : b ≤ a |- _ => fail
      | _ => pose proof (proj1 (Z.ltb_ge a b) H)
      end
  end.

(** ** Inputs of the concrete runs *)

Definition demo_url : Url := {| base_url := "u"%string; query := [] |}.

Definition listing_ok (children : list Reddit.Child) (after : option string)
  : Reply Reddit.Payload :=
  Resp (mkResponse 200 RaAbsent (Some (Reddit.Listing children after))).

Definition too_many {B} (ra : RetryAfter) : Reply B := Resp (mkResponse 429 ra None).

(** UTC as the host's time zone. *)
Definition utc (ts : Z) : datetime := ts * 1000000.

Definition demo_args : Reddit.Args :=
  {| Reddit.arg_subreddit := "python"%string;
     Reddit.arg_start_date := datetime_ymd 2024 1 1;
     Reddit.arg_end_date := datetime_ymd 2024 1 15;
     Reddit.arg_format := Reddit.fmt_json;
     Reddit.arg_output := Some "out.json"%string;
     Reddit.arg_delay_min := 2;
     Reddit.arg_delay_max := 5 |}.

Definition demo_config : Reddit.Config := Reddit.config_of_args demo_args "0"%string.

Definition demo_post (i : string) (ts : Z) : Reddit.Post :=
  {| Reddit.id := KStr i; Reddit.created_utc := Some ts; Reddit.title := i |}.


Definition utc_timestamp (d : datetime) : option Z := Some (d / 1000000).

(** 2024-01-02 12:00 UTC and 2024-02-01 00:00 UTC. *)
Definition jan_2 : Z := 1704196800.
Definition feb_1 : Z := 1706745600.

Definition thing (i : string) (ts : Z) : Reddit.Child :=
  Reddit.Thing (KStr i) (Reddit.TsNum ts) i.

(** A run resumed from a checkpoint that holds [a]: the first page offers
    [a], [b], [b] again and a post of February, the second page [c]. *)
Definition demo_script : list (Reply Reddit.Payload) :=
  [listing_ok [thing "a" jan_2; thing "b" jan_2; thing "b" jan_2; thing "late" feb_1]
     (Some "t3_b"%string);
   listing_ok [thing "c" jan_2] None].

(** A hundred posts of 2024-01-02, numbered from 0. *)
Definition hundred_things : list Reddit.Child :=
  (λ i, Reddit.Thing (KNum (Z.of_nat i)) (Reddit.TsNum jan_2) "post"%string)
    <$> seq 0 100.

(** The first listing offers the hundred posts and no cursor; the second
    offers one of them again with a cursor, and its next page is empty. *)
Definition count_script : list (Reply Reddit.Payload) :=
  [listing_ok hundred_things None;
   listing_ok [Reddit.Thing (KNum 0) (Reddit.TsNum jan_2) "post"%string]
     (Some "t3_0"%string);
   listing_ok [] None].

(** Four pages chained by the cursors [A], [B], [C]; the last has no
    cursor. *)
Definition cursor_script : list (Reply Reddit.Payload) :=
  [listing_ok [thing "p0" jan_2] (Some "A"%string);
   listing_ok [thing "pA" jan_2] (Some "B"%string);
   listing_ok [thing "pB" jan_2] (Some "C"%string);
   listing_ok [thing "pC" jan_2] None].

(** ** Further vocabulary: the fetch loops *)

(** The seconds [_fetch_json] sleeps after a reply before its next attempt;
    [None] for a reply that ends the fetch (a readable 200, a 403). *)
Definition retry_wait (r : Reply Reddit.Payload) : option Z :=
  match r with
  | Resp resp =>
      if status resp =? 200 then
        match body resp with Some _ => None | None => Some 5 end
      else if status resp =? 429 then Some (Reddit.rate_limit_wait (retry_after resp))
      else if status resp =? 403 then None
      else Some 5
  | TimedOut => Some 10
  | Failed => Some 5
  end.


(** The number of requests in a list of events. *)
Definition requests {D} (evs : list (Event D)) : nat :=
  length (filter (λ e, is_get e = true) evs).

(** A reply [fetch_html] retries after while [retries < max_retries]: a
    429 or a timeout. *)
Definition market_retries (r : Reply string) : bool :=
  match r with
  | Resp resp => negb (status resp =? 200) && (status resp =? 429)
  | TimedOut => true
  | Failed => false
  end.

(** The events of the calls of [fetch_html] that met the replies [rs], the
    first of them made with the counter at [retries]: the random delay and
    the request, and after a 429 the sleep of [(retries + 1) * 10]. *)
Fixpoint retried_calls (cfg : Market.Config) (url : string) (retries : nat)
    (rs : list (Reply string)) : list (Event Market.Results) :=
  match rs with
  | [] => []
  | r :: rest =>
      [EvRandomSleep (Market.base_delay cfg).1 (Market.base_delay cfg).2;
       EvGet (Market.page url)]
      ++ match r with
         | Resp _ => [EvSleep ((Z.of_nat retries + 1) * 10)]
         | _ => []
         end
      ++ retried_calls cfg url (retries + 1) rest
  end.

(** ** Further vocabulary: the drivers *)

(** A sleep, fixed or random. *)
Definition is_pause {D} (e : Event D) : bool :=
  match e with EvSleep _ | EvRandomSleep _ _ => true | _ => false end.

(** No request of [evs] comes right after another request or after a file
    write: each comes right after a sleep, or is the first event when
    [rested] says the run may start with one. *)
Fixpoint spaced {D} (rested : bool) (evs : list (Event D)) : bool :=
  match evs with
  | [] => true
  | e :: rest => (if is_get e then rested else true) && spaced (is_pause e) rest
  end.

(** What a run of the Reddit drivers may add to the trace when it started
    from the seen identifiers [seen0]: requests, fixed sleeps, random
    delays over [delay_min .. delay_max], and writes of the checkpoint
    file whose document holds [seen0] and, beyond it, as many identifiers
    as it counts posts. *)
Definition run_event (c : Reddit.Config) (seen0 : gset Key) (e : Reddit.REvent) : Prop :=
  match e with
  | EvGet _ | EvSleep _ => True
  | EvRandomSleep lo hi => lo = Reddit.delay_min c ∧ hi = Reddit.delay_max c
  | EvWrite path doc =>
      path = Reddit.checkpoint_file c
      ∧ ∃ seen n, doc = Reddit.DocCheckpoint seen n
                  ∧ seen0 ⊆ seen ∧ size seen = (n + size seen0)%nat
  end.

(** A listing child the loops go through without an exception: it is no
    thing, or [fromtimestamp] refuses its ['created_utc'] (no dict is
    built), or it has a ['created_utc'] key and an ['id'] a set can
    hold. *)
Definition child_readable (child : Reddit.Child) : bool :=
  match child with
  | Reddit.NotAThing => true
  | Reddit.Thing _ Reddit.TsMissing _ => false
  | Reddit.Thing _ _ _ => true
  | Reddit.ThingUnhashable Reddit.TsRefused _ => true
  | Reddit.ThingUnhashable _ _ => false
  end.


(** What a run of a driver from [self = m] and the world [w] that ended as
    [r] did: it added events that a run started from [seen0] may add,
    [self] is still consistent and has lost no post, and it wrote nothing
    if fewer than a hundred posts were added. *)
Definition driver_run {A} (c : Reddit.Config) (seen0 : gset Key) (m : Reddit.Mem)
    (w : Reddit.RWorld) (r : Reddit.Outcome A) : Prop :=
  ∃ evs,
    trace (world_of r) = trace w ++ evs
    ∧ Forall (run_event c seen0) evs
    ∧ collected_once seen0 (mem_of r)
    ∧ (length (Reddit.posts m) ≤ length (Reddit.posts (mem_of r)))%nat
    ∧ ((length (Reddit.posts (mem_of r)) < 100 + length (Reddit.posts m))%nat →
       Forall (λ e, is_write e = false) evs).

(** * Theorems *)

(** ** The fetchers *)

Lemma trace_snoc2 {D} (t : list (Event D)) a b : (t ++ [a]) ++ [b] = t ++ [a; b].
Proof. by rewrite <- app_assoc. Qed.

Lemma trace_snoc3 {D} (t : list (Event D)) a b c :
  ((t ++ [a]) ++ [b]) ++ [c] = t ++ [a; b; c].
Proof. by rewrite <- !app_assoc. Qed.


(** C3. A 403 ends the fetch at once, in both scrapers: the fetcher returns
    [None] having made this one request, it sleeps no more and asks no
    more (the rest of the script is untouched, the attempts left are
    dropped), and it returns rather than raises.  For [_fetch_json] this
    holds at every turn of its loop, for [fetch_html] at every value of
    [retries]. *)
Theorem forbidden_is_terminal :
  (∀ attempt later url ra b rest t,
      Reddit.fetch_attempts (attempt :: later) url
        {| net := Resp (mkResponse 403 ra b) :: rest; trace := t |}
      = (None, {| net := rest; trace := t ++ [EvGet url] |}))
  ∧ (∀ cfg url retries ra b rest t,
      Market.fetch_html cfg url retries
        {| net := Resp (mkResponse 403 ra b) :: rest; trace := t |}
      = (None, {| net := rest;
                  trace := t ++ [EvRandomSleep (Market.base_delay cfg).1
                                               (Market.base_delay cfg).2;
                                 EvGet (Market.page url)] |})).
Proof.
  split.
  - reflexivity.
  - intros. simp fetch_html. simpl. by rewrite trace_snoc2.
Qed.




(** What [_fetch_json] adds to the trace: requests and fixed sleeps. *)
Lemma fetch_attempts_trace attempts url w :
  ∃ added, trace (Reddit.fetch_attempts attempts url w).2 = trace w ++ added
           ∧ Forall (λ e, is_random_sleep e = false) added.
Proof.
  revert w. induction attempts as [|a later IH]; intros w; simpl.
  { exists []. by rewrite app_nil_r. }
  assert (Hlater : ∀ secs rest,
    ∃ added,
      trace (Reddit.fetch_attempts later url
               (sleep secs {| net := rest; trace := trace w ++ [EvGet url] |})).2
      = trace w ++ added
      ∧ Forall (λ e, is_random_sleep e = false) added).
  { intros secs rest.
    destruct (IH (sleep secs {| net := rest; trace := trace w ++ [EvGet url] |}))
      as (added & -> & Hall).
    exists ([EvGet url; EvSleep secs] ++ added). simpl.
    rewrite <- !app_assoc. split; [done|].
    repeat constructor; done. }
  assert (Hstop : ∀ (o : option Reddit.Payload) (rest : list (Reply Reddit.Payload)),
    ∃ added,
      trace (o, {| net := rest; trace := trace w ++ [EvGet url] |}).2
      = trace w ++ added
      ∧ Forall (λ e : Reddit.REvent, is_random_sleep e = false) added).
  { intros o rest. exists [EvGet url]. split; [done|]. repeat constructor. }
  unfold session_get, emit.
  destruct (net w) as [|r rest]; simpl; [apply Hlater|].
  destruct r as [resp| |]; simpl; try apply Hlater.
  destruct (status resp =? 200).
  { destruct (body resp); [apply Hstop | apply Hlater]. }
  destruct (status resp =? 429).
  { destruct (Reddit.int_retry_after _); apply Hlater. }
  destruct (status resp =? 403); [apply Hstop | apply Hlater].
Qed.

(** What [fetch_html] adds to the trace: each request right after a random
    delay over [base_delay]. *)
Lemma fetch_html_trace cfg url retries w :
  ∃ added, trace (Market.fetch_html cfg url retries w).2 = trace w ++ added
           ∧ gets_delayed (Market.base_delay cfg).1 (Market.base_delay cfg).2 added.
Proof.
  remember (Market.max_retries cfg - retries)%nat as k eqn:Hk.
  revert retries w Hk.
  induction k as [k IH] using lt_wf_ind. intros retries w Hk.
  rewrite (Market.fetch_html_equation_1 cfg url retries).
  set (lo := (Market.base_delay cfg).1). set (hi := (Market.base_delay cfg).2).
  assert (Hstop :
    ∃ added : list (Event Market.Results),
      (trace w ++ [EvRandomSleep lo hi]) ++ [EvGet (Market.page url)]
      = trace w ++ added ∧ gets_delayed lo hi added).
  { exists [EvRandomSleep lo hi; EvGet (Market.page url)].
    simpl. by rewrite trace_snoc2. }
  assert (Hagain : ∀ w1 mid,
    (retries < Market.max_retries cfg)%nat →
    trace w1 = trace w ++ [EvRandomSleep lo hi; EvGet (Market.page url)] ++ mid →
    gets_delayed lo hi mid →
    (∀ more, gets_delayed lo hi more → gets_delayed lo hi (mid ++ more)) →
    ∃ added,
      trace (Market.fetch_html cfg url (retries + 1) w1).2 = trace w ++ added
      ∧ gets_delayed lo hi added).
  { intros w1 mid Hlt Hw1 Hmid Hext.
    destruct (IH (Market.max_retries cfg - (retries + 1))%nat ltac:(lia)
                 (retries + 1)%nat w1 eq_refl) as (added & -> & Hadd).
    exists ([EvRandomSleep lo hi; EvGet (Market.page url)] ++ mid ++ added).
    rewrite Hw1, <- !app_assoc. split; [done|].
    simpl. split; [done|]. split; [done|]. by apply Hext. }
  unfold session_get, Market.random_delay, random_sleep, emit. simpl.
  fold lo hi.
  destruct (net w) as [|r rest]; simpl; [apply Hstop|].
  destruct r as [resp| |]; simpl; [| |apply Hstop].
  - destruct (status resp =? 200); [apply Hstop|].
    destruct (status resp =? 429).
    + destruct (lt_dec retries (Market.max_retries cfg)); [|apply Hstop].
      apply (Hagain _ [EvSleep ((Z.of_nat retries + 1) * 10)]); try done.
      simpl. by rewrite trace_snoc3.
    + destruct (status resp =? 403); apply Hstop.
  - destruct (lt_dec retries (Market.max_retries cfg)); [|apply Hstop].
    apply (Hagain _ []); try done.
    simpl. by rewrite trace_snoc2.
Qed.

(** C6, as the code has it.  [fetch_html] of the market scraper sleeps a
    random time drawn from [random.uniform] over [CONFIG]'s [base_delay]
    right before every request, the retries included.  [_fetch_json] of
    the Reddit scraper makes no random delay: what it adds to the trace is
    requests and fixed sleeps only. *)
Theorem random_delay_before_each_market_request :
  (∀ cfg url retries w,
      ∃ added,
        trace (Market.fetch_html cfg url retries w).2 = trace w ++ added
        ∧ gets_delayed (Market.base_delay cfg).1 (Market.base_delay cfg).2 added)
  ∧ (∀ url w,
      ∃ added,
        trace (Reddit._fetch_json url w).2 = trace w ++ added
        ∧ Forall (λ e, is_random_sleep e = false) added).
Proof.
  split.
  - apply fetch_html_trace.
  - intros. apply fetch_attempts_trace.
Qed.

(** C6 does not hold as the specification states it on [_fetch_json]: an
    attempt that times out and the retry that follows are made with no
    random delay before either. *)
Lemma reddit_fetch_has_no_random_delay :
  (Reddit._fetch_json demo_url
     {| net := [TimedOut; listing_ok [] None]; trace := [] |}).2.(trace)
  = [EvGet demo_url; EvSleep 10; EvGet demo_url]
  ∧ existsb is_random_sleep
      [EvGet demo_url; EvSleep 10; EvGet demo_url : Reddit.REvent] = false
  ∧ ¬ gets_delayed 2 5 [EvGet demo_url; EvSleep 10; EvGet demo_url : Reddit.REvent].
Proof.
  split; [reflexivity|]. split; [reflexivity|]. simpl. tauto.
Qed.

(** ** The checkpoint loader *)

Lemma set_of_items_hashable items :
  forallb hashable items = true ↔ ∃ s, Reddit.set_of_items items = Reddit.Ok s.
Proof.
  induction items as [|x rest IH]; simpl.
  - split; [eauto|done].
  - rewrite andb_true_iff, IH. split.
    + intros [Hx [s ->]]. destruct x; simpl in *; try done; eauto.
    + destruct x; simpl; try (intros [? [=]]);
        destruct (Reddit.set_of_items rest); try (intros [? [=]]); eauto.
Qed.

Lemma set_of_items_keys items :
  forallb hashable items = true →
  Reddit.set_of_items items = Reddit.Ok (list_to_set (key_of <$> items)).
Proof.
  induction items as [|x rest IH]; [done|]. cbn [forallb].
  intros [Hx Hrest]%andb_true_iff. cbn [Reddit.set_of_items].
  rewrite (IH Hrest). by destruct x.
Qed.

Lemma set_of_items_unhashable items :
  forallb hashable items = false → Reddit.set_of_items items = Reddit.Exn.
Proof.
  intros Hno. destruct (Reddit.set_of_items items) as [s|] eqn:Hs; [|done].
  assert (forallb hashable items = true) by (apply set_of_items_hashable; eauto).
  congruence.
Qed.

(** C8, as the code has it.  [_load_checkpoint] returns for every state of
    the checkpoint file, it never raises.  It returns the default
    checkpoint and leaves [seen_ids] as it was when there is no file, when
    the file cannot be read, when its text is not JSON, and when a
    statement of the loader raises on the parsed content: the content is
    no object, or its ['seen_ids'] has no length ([null], a number, a
    boolean) or is a list with a member [set] refuses.  It validates
    nothing else: any other object is returned as read, and [seen_ids]
    becomes the set of the members of its ['seen_ids'], whatever they
    are: the members of a list (numbers and [null] as much as strings),
    the characters of a string, the keys of an object, nothing when the
    key is missing. *)
Theorem load_checkpoint_defaults_or_reads :
  ∀ (f : Reddit.CheckpointFile) (seen : gset Key),
    (∃ r, Reddit._load_checkpoint f seen = Reddit.Ok r)
    ∧ Reddit._load_checkpoint f seen
      = match f with
        | Reddit.Contents (Some (JObj members)) =>
            match dict_get "seen_ids"%string members with
            | None => Reddit.Ok (JObj members, ∅)
            | Some (JArr items) =>
                if forallb hashable items
                then Reddit.Ok (JObj members, list_to_set (key_of <$> items))
                else Reddit.Ok (Reddit.default_checkpoint, seen)
            | Some (JStr text) =>
                Reddit.Ok (JObj members, list_to_set (KStr <$> Reddit.chars text))
            | Some (JObj keyed) =>
                Reddit.Ok (JObj members, list_to_set (KStr <$> keyed.*1))
            | Some _ => Reddit.Ok (Reddit.default_checkpoint, seen)
            end
        | _ => Reddit.Ok (Reddit.default_checkpoint, seen)
        end.
Proof.
  intros f seen.
  assert (Hret : ∃ r, Reddit._load_checkpoint f seen = Reddit.Ok r).
  { unfold Reddit._load_checkpoint.
    destruct (Reddit.load_checkpoint_try f) as [[[data s]|]|]; eauto. }
  split; [exact Hret|]. unfold Reddit._load_checkpoint.
  destruct f as [| |[data|]]; try done.
  destruct data as [| | | | |members]; try done.
  cbn [Reddit.load_checkpoint_try Reddit.get_seen_ids].
  destruct (dict_get _ members) as [v|]; [|done].
  destruct v as [| | | |items|keyed]; try done.
  cbn [Reddit.py_len Reddit.py_set].
  destruct (forallb hashable items) eqn:Hh.
  - by rewrite (set_of_items_keys _ Hh).
  - by rewrite (set_of_items_unhashable _ Hh).
Qed.

Lemma load_checkpoint_defaults_or_reads_witness :
  Reddit._load_checkpoint (Reddit.Contents (Some (JArr [JStr "abc"%string]))) ∅
  = Reddit.Ok (Reddit.default_checkpoint, ∅).
Proof.
  destruct (load_checkpoint_defaults_or_reads
              (Reddit.Contents (Some (JArr [JStr "abc"%string]))) ∅) as [_ Hload].
  exact Hload.
Defined.

(** The claim of C8 fails on a file that is JSON but no checkpoint: of
    [{"seen_ids": "abc"}] the loader makes the seen identifiers [a], [b]
    and [c], and it returns the content, not the default checkpoint. *)
Lemma invalid_checkpoint_is_taken_as_read :
  Reddit._load_checkpoint
    (Reddit.Contents (Some (JObj [("seen_ids"%string, JStr "abc"%string)]))) ∅
  = Reddit.Ok (JObj [("seen_ids"%string, JStr "abc"%string)],
               {[KStr "a"%string; KStr "b"%string; KStr "c"%string]})
  ∧ Reddit._load_checkpoint
      (Reddit.Contents (Some (JObj [("seen_ids"%string, JStr "abc"%string)]))) ∅
    ≠ Reddit.Ok (Reddit.default_checkpoint, ∅).
Proof.
  split; [vm_compute; reflexivity|]. vm_compute. discriminate.
Qed.

(** ** Writing the results *)

(** C9, as the code has it.  The market scraper's [main] always ends by
    writing the results it returns to [CONFIG]'s output file, also when no
    deal was found: the document then holds a zero total and an empty
    list.  The Reddit scraper's [save_output] returns without writing
    anything when [self.posts] is empty. *)
Theorem empty_results_written_by_market_only :
  (∀ ca cs cb c1 cfg w,
      ∃ t, trace (Market.main ca cs cb c1 cfg w).2
           = t ++ [EvWrite (Market.output_file cfg) (Market.main ca cs cb c1 cfg w).1])
  ∧ (∀ ca cs cb c1 cfg w,
      Market.deals (Market.main ca cs cb c1 cfg w).1 = [] →
      (Market.main ca cs cb c1 cfg w).1
      = {| Market.total_deals := 0; Market.by_market := (0, 0, 0)%nat;
           Market.deals := [] |})
  ∧ (∀ c seen w,
      Reddit.save_output c {| Reddit.posts := []; Reddit.seen_ids := seen |} w
      = Reddit.Returned tt {| Reddit.posts := []; Reddit.seen_ids := seen |} w).
Proof.
  split; [|split].
  - intros. unfold Market.main.
    destruct (Market.scrape_all_markets _ _ _ _ _ _) as [results w1]. simpl.
    eauto.
  - intros ca cs cb c1 cfg w. unfold Market.main.
    destruct (Market.scrape_all_markets _ _ _ _ _ _) as [results w1] eqn:Hall.
    simpl. unfold Market.scrape_all_markets in Hall.
    destruct (Market.scrape_aktuel_urunler _ _ _) as [agg w0].
    destruct (match agg with [] => _ | _ => _ end) as [all_deals w2].
    injection Hall as <- _. simpl. by intros ->.
  - reflexivity.
Qed.

Lemma empty_results_written_by_market_only_witness :
  (Market.main (λ _, []) (λ _, []) (λ _, []) (λ _, []) Market.CONFIG
     {| net := []; trace := [] |}).1
  = {| Market.total_deals := 0; Market.by_market := (0, 0, 0)%nat;
       Market.deals := [] |}.
Proof.
  destruct empty_results_written_by_market_only as (_ & H & _).
  apply H. vm_compute. reflexivity.
Defined.

(** C9 does not hold as the specification states it on the Reddit
    scraper: a whole run that accepts no post (here no request is
    answered) returns normally and the only file it writes is the
    checkpoint; the output file is not written. *)
Lemma reddit_run_without_posts_writes_no_output :
  ∃ w', Reddit.main utc demo_args "0"%string Reddit.Absent {| net := []; trace := [] |}
        = Reddit.Returned tt {| Reddit.posts := []; Reddit.seen_ids := ∅ |} w'
        ∧ filter (λ e, is_write e = true) (trace w')
          = [EvWrite "checkpoint.json"%string (Reddit.DocCheckpoint ∅ 0)]
        ∧ Reddit.output_file demo_config = "out.json"%string.
Proof.
  eexists. split; [vm_compute; reflexivity|]. split; reflexivity.
Qed.

(** *** The newest-first sort of [save_output] *)

Lemma insert_desc_perm p l : Reddit.insert_desc p l ≡ₚ p :: l.
Proof.
  induction l as [|q rest IH]; simpl; [done|].
  destruct (Reddit.sort_key q <=? Reddit.sort_key p); [done|].
  rewrite IH. apply perm_swap.
Qed.

Lemma sort_desc_perm l : Reddit.sort_desc l ≡ₚ l.
Proof.
  induction l as [|p rest IH]; simpl; [done|].
  by rewrite insert_desc_perm, IH.
Qed.

Lemma insert_desc_sorted p l :
  StronglySorted not_older l → StronglySorted not_older (Reddit.insert_desc p l).
Proof.
  induction 1 as [|q rest Hrest IH Hq]; simpl.
  - repeat constructor.
  - destruct (Reddit.sort_key q <=? Reddit.sort_key p) eqn:Hle.
    + apply Z.leb_le in Hle. constructor; [by constructor|].
      constructor; [done|].
      eapply Forall_impl; [exact Hq|]. unfold not_older. intros r Hr. lia.
    + apply Z.leb_gt in Hle. constructor; [done|].
      rewrite insert_desc_perm. constructor; [unfold not_older; lia | done].
Qed.

Lemma sort_desc_sorted l : StronglySorted not_older (Reddit.sort_desc l).
Proof.
  induction l as [|p rest IH]; simpl; [constructor|].
  by apply insert_desc_sorted.
Qed.






(** ** The drivers: what a run adds to the collection *)
Section DriverFacts.
Import Reddit.
Set Default Proof Using "Type".
Local Set Warnings "-clear-no-such-hyp".

Variable fromtimestamp : Z → datetime.

Lemma grows_refl P m : grows P m [] m.
Proof.
  unfold grows. simpl. rewrite app_nil_r.
  split; [done|]. split; [set_solver|]. split; [constructor|].
  split; [set_solver|constructor].
Qed.

Lemma grows_trans P m a m' b m'' :
  grows P m a m' → grows P m' b m'' → grows P m (a ++ b) m''.
Proof.
  intros (Hp & Hs & Hnd & Hnew & HP) (Hp' & Hs' & Hnd' & Hnew' & HP').
  unfold grows, ids in *. rewrite fmap_app.
  split; [by rewrite Hp', Hp, app_assoc|].
  split; [rewrite Hs', Hs, list_to_set_app_L; set_solver|].
  split.
  { apply NoDup_app. split; [done|]. split; [|done].
    intros k Hk Hk'. apply (Hnew' k Hk'). rewrite Hs. set_solver. }
  split.
  { intros k [Hk|Hk]%elem_of_app; [by apply Hnew|].
    intros Hin. apply (Hnew' k Hk). rewrite Hs. set_solver. }
  by apply Forall_app.
Qed.

(** The test on one record: the body of either loop accepts a child
    exactly when extraction yields a post, its identifier is not in
    [seen_ids], and its timestamp passes the loop's date test; it then
    appends the post and adds the identifier. *)
Lemma visit_child_accepted in_range m child m' :
  visit_child fromtimestamp in_range m child = Accepted m' ↔
  ∃ post ts,
    _extract_post_data child = Dict post
    ∧ (id post ∉ seen_ids m)
    ∧ created_utc post = Some ts
    ∧ in_range (fromtimestamp ts) = true
    ∧ m' = {| posts := posts m ++ [post]; seen_ids := {[id post]} ∪ seen_ids m |}.
Proof.
  unfold visit_child. split.
  - destruct (_extract_post_data child) as [|post|]; [done| |done].
    case_decide as Hseen; [done|].
    destruct (created_utc post) as [ts|] eqn:Hts; [|done].
    destruct (in_range (fromtimestamp ts)) eqn:Hin; [|done].
    intros [= <-]. exists post, ts. done.
  - intros (post & ts & -> & Hseen & -> & -> & ->).
    by rewrite decide_False.
Qed.

Lemma visit_child_grows in_range m child m' :
  visit_child fromtimestamp in_range m child = Accepted m' →
  ∃ post, grows (dated fromtimestamp in_range) m [post] m'.
Proof.
  intros (post & ts & _ & Hseen & Hts & Hin & ->)%visit_child_accepted.
  exists post. unfold grows, ids. simpl.
  split; [done|]. split; [set_solver|]. split; [apply NoDup_singleton|].
  split; [set_solver|]. constructor; [|constructor]. by exists ts.
Qed.

Lemma page_children_grows c children m count total r m' :
  page_children fromtimestamp c children m count total = (r, m') →
  ∃ added,
    grows (dated fromtimestamp (in_date_range c)) m added m'
    ∧ ∀ count' total', r = Some (count', total') →
        count' = (count + length added)%nat ∧ total' = (total + length added)%nat.
Proof.
  revert m count total. induction children as [|child rest IH]; intros m count total; simpl.
  - intros [= <- <-]. exists []. split; [apply grows_refl|].
    intros ? ? [= <- <-]. simpl. lia.
  - destruct (visit_child _ _ m child) as [|m1|] eqn:Hv.
    + apply IH.
    + intros Hrest. apply visit_child_grows in Hv as [post Hpost].
      apply IH in Hrest as (added & Hadded & Hcount).
      exists ([post] ++ added). split; [by eapply grows_trans|].
      intros count' total' Hr. apply Hcount in Hr. simpl. lia.
    + intros [= <- <-]. exists []. split; [apply grows_refl|done].
Qed.

Lemma grows_weaken (P Q : Post → Prop) m added m' :
  (∀ p, P p → Q p) → grows P m added m' → grows Q m added m'.
Proof.
  intros HPQ (Hp & Hs & Hnd & Hnew & HP). repeat split; try done.
  eapply Forall_impl; eauto.
Qed.

Lemma chunk_children_grows start end_ children m count r m' :
  chunk_children fromtimestamp start end_ children m count = (r, m') →
  ∃ added,
    grows (dated fromtimestamp (in_chunk start end_)) m added m'
    ∧ ∀ count', r = Some count' → count' = (count + length added)%nat.
Proof.
  revert m count. induction children as [|child rest IH]; intros m count; simpl.
  - intros [= <- <-]. exists []. split; [apply grows_refl|].
    intros ? [= <-]. simpl. lia.
  - destruct (visit_child _ _ m child) as [|m1|] eqn:Hv.
    + apply IH.
    + intros Hrest. apply visit_child_grows in Hv as [post Hpost].
      apply IH in Hrest as (added & Hadded & Hcount).
      exists ([post] ++ added). split; [by eapply grows_trans|].
      intros count' Hr. apply Hcount in Hr. simpl. lia.
    + intros [= <- <-]. exists []. split; [apply grows_refl|done].
Qed.

(** What one [while True] loop of the pagination driver does to [self]:
    it accepts some posts, and the [total_count] it ends with has grown by
    their number. *)
Lemma paginate_grows c base tf after count total m w :
  ∃ added,
    grows (dated fromtimestamp (in_date_range c)) m added
      (mem_of (paginate fromtimestamp c base tf after count total m w))
    ∧ ∀ total', value_of (paginate fromtimestamp c base tf after count total m w)
                = Some total' →
        total' = (total + length added)%nat.
Proof.
  funelim (paginate fromtimestamp c base tf after count total m w);
    rewrite <- ?Heqcall;
    try (exists []; split; [apply grows_refl|]; cbn [value_of];
         first [done | intros ? [= <-]; simpl; lia]).
  - apply page_children_grows in Heq as (added1 & Hg1 & Hc1).
    destruct (Hc1 _ _ eq_refl) as [_ ->].
    destruct (truthy after').
    + destruct H as (added2 & Hg2 & Hc2).
      exists (added1 ++ added2). split; [by eapply grows_trans|].
      intros t Ht. rewrite (Hc2 t Ht), length_app. lia.
    + exists added1. split; [done|]. by intros ? [= <-].
  - apply page_children_grows in Heq as (added1 & Hg1 & _).
    exists added1. split; [done|]. done.
Qed.

Lemma for_time_filters_grows c base filters total m w :
  ∃ added,
    grows (dated fromtimestamp (in_date_range c)) m added
      (mem_of (for_time_filters fromtimestamp c base filters total m w))
    ∧ ∀ total', value_of (for_time_filters fromtimestamp c base filters total m w)
                = Some total' →
        total' = (total + length added)%nat.
Proof.
  revert total m w. induction filters as [|tf later IH]; intros total m w; simpl.
  - exists []. split; [apply grows_refl|]. intros ? [= <-]. simpl. lia.
  - destruct (paginate_grows c base tf None 0 total m w) as (added1 & Hg1 & Hc1).
    destruct (paginate _ _ _ _ _ _ _ _ _) as [total1 m1 w1|m1 w1]; simpl in *.
    + destruct (IH total1 m1 w1) as (added2 & Hg2 & Hc2).
      exists (added1 ++ added2). split; [by eapply grows_trans|].
      intros t Ht. rewrite (Hc2 t Ht), (Hc1 _ eq_refl), length_app. lia.
    + exists added1. done.
Qed.

Lemma for_sorts_grows c sorts m w :
  ∃ added,
    grows (dated fromtimestamp (in_date_range c)) m added
      (mem_of (for_sorts fromtimestamp c sorts m w)).
Proof.
  revert m w. induction sorts as [|sort later IH]; intros m w; simpl.
  - exists []. apply grows_refl.
  - unfold scrape_old_reddit_pagination.
    destruct (for_time_filters_grows c (listing_url (subreddit c) sort)
                (time_filters sort) 0 m w) as (added1 & Hg1 & _).
    destruct (for_time_filters _ _ _ _ _ _ _) as [total1 m1 w1|m1 w1]; simpl in *.
    + destruct (IH m1 w1) as (added2 & Hg2). exists (added1 ++ added2).
      by eapply grows_trans.
    + by exists added1.
Qed.

Lemma scrape_grows c m w :
  ∃ added,
    grows (dated fromtimestamp (in_date_range c)) m added (mem_of (scrape fromtimestamp c m w))
    ∧ ∀ n, value_of (scrape fromtimestamp c m w) = Some n →
           n = length (posts m ++ added).
Proof.
  unfold scrape.
  destruct (for_sorts_grows c ["new"; "hot"; "top"; "rising"; "controversial"]%string m w)
    as (added & Hg).
  destruct (for_sorts _ _ _ _ _) as [[] m1 w1|m1 w1]; simpl in *;
    exists added; (split; [done|]); [|done].
  intros n [= <-]. by destruct Hg as [-> _].
Qed.

(** *** Uniqueness of identifiers *)

Lemma grows_collected_once P seen0 added m' :
  grows P {| posts := []; seen_ids := seen0 |} added m' → collected_once seen0 m'.
Proof.
  intros (Hp & Hs & Hnd & Hnew & _). simpl in *. unfold collected_once.
  by rewrite Hp.
Qed.

Lemma collected_once_perm seen0 m m' :
  posts m' ≡ₚ posts m → seen_ids m' = seen_ids m →
  collected_once seen0 m → collected_once seen0 m'.
Proof.
  intros Hperm Hseen (Hnd & Hnew & Hs). unfold collected_once.
  assert (Hids : ids (posts m') ≡ₚ ids (posts m)) by by apply fmap_Permutation.
  split; [by rewrite Hids|].
  split.
  - intros k Hk. apply Hnew. by rewrite <- Hids.
  - rewrite Hseen, Hs. f_equal. symmetry. by apply list_to_set_perm_L.
Qed.

Lemma save_output_mem c m w :
  posts (mem_of (save_output c m w)) ≡ₚ posts m
  ∧ seen_ids (mem_of (save_output c m w)) = seen_ids m.
Proof.
  unfold save_output. destruct (posts m) as [|p rest] eqn:Hposts.
  { simpl. by rewrite Hposts. }
  unfold sort_posts. destruct (_ && _); simpl; [by rewrite Hposts|].
  destruct (output_format c =? "json")%string; simpl.
  { split; [|done]. apply (sort_desc_perm (p :: rest)). }
  destruct (output_format c =? "csv")%string; simpl;
    (split; [|done]); apply (sort_desc_perm (p :: rest)).
Qed.

Lemma set_of_strings (seen : list string) :
  set_of_items (JStr <$> seen) = Ok (list_to_set (KStr <$> seen)).
Proof.
  induction seen as [|x rest IH]; csimpl; [done|]. by rewrite IH.
Qed.

Lemma init_from_checkpoint c seen stamp count :
  init c (Contents (Some (checkpoint_doc seen stamp count)))
  = Ok (checkpoint_doc seen stamp count,
        {| posts := []; seen_ids := list_to_set (KStr <$> seen) |}).
Proof.
  unfold init, _load_checkpoint. csimpl. by rewrite set_of_strings.
Qed.

Lemma init_fresh c f :
  ∃ data seen0, init c f = Ok (data, {| posts := []; seen_ids := seen0 |}).
Proof.
  unfold init, _load_checkpoint.
  destruct (load_checkpoint_try f) as [[[data s]|]|]; eauto.
Qed.

(** *** The date range *)



(** *** Time filters *)

Lemma fetch_attempts_first_request attempt later url w :
  ∃ more, trace (fetch_attempts (attempt :: later) url w).2
          = trace w ++ EvGet url :: more.
Proof.
  cbn [fetch_attempts].
  assert (Hlater : ∀ secs rest,
    ∃ more,
      trace (fetch_attempts later url
               (sleep secs {| net := rest; trace := trace w ++ [EvGet url] |})).2
      = trace w ++ EvGet url :: more).
  { intros secs rest.
    destruct (fetch_attempts_trace later url
                (sleep secs {| net := rest; trace := trace w ++ [EvGet url] |}))
      as (added & -> & _).
    simpl. rewrite <- !app_assoc. simpl. eauto. }
  assert (Hstop : ∃ more : list REvent,
            trace w ++ [EvGet url] = trace w ++ EvGet url :: more) by eauto.
  unfold session_get, emit.
  destruct (net w) as [|r rest]; cbn [fst snd net trace]; [apply Hlater|].
  destruct r as [resp| |]; try apply Hlater.
  destruct (status resp =? 200).
  { destruct (body resp); [apply Hstop | apply Hlater]. }
  destruct (status resp =? 429).
  { destruct (int_retry_after _); apply Hlater. }
  destruct (status resp =? 403); [apply Hstop | apply Hlater].
Qed.

Lemma fetch_json_first_request url w :
  ∃ more, trace (_fetch_json url w).2 = trace w ++ EvGet url :: more.
Proof. apply fetch_attempts_first_request. Qed.

(** The first thing a pagination loop does is request the page its
    cursor names. *)
Lemma paginate_first_request c base tf after count total m w :
  ∃ more,
    trace (world_of (paginate fromtimestamp c base tf after count total m w))
    = trace w ++ EvGet (page_url base after tf) :: more.
Proof.
  funelim (paginate fromtimestamp c base tf after count total m w);
    rewrite <- ?Heqcall;
    match goal with
    | Hf : _fetch_json ?u ?w0 = (_, ?w1) |- _ =>
        destruct (fetch_json_first_request u w0) as [more Hmore];
        rewrite Hf in Hmore; cbn [snd] in Hmore
    end;
    try (cbn [world_of]; by eauto).
  destruct (truthy after'); cbn [world_of]; [|by eauto].
  destruct H as [more' ->].
  destruct (_ && _);
    unfold _delay, _save_checkpoint, random_sleep, write_file, emit;
    cbn [trace]; rewrite Hmore, <- !app_assoc; simpl; eauto.
Qed.

(** What [_fetch_json] adds to the trace is no file write. *)
Lemma fetch_json_writes_nothing url w :
  ∃ added, trace (_fetch_json url w).2 = trace w ++ added
           ∧ Forall (λ e : REvent, is_write e = false) added.
Proof.
  unfold _fetch_json. generalize (seq 0 max_retries). intros attempts.
  revert w. induction attempts as [|a later IH]; intros w; cbn [fetch_attempts].
  { exists []. by rewrite app_nil_r. }
  assert (Hlater : ∀ secs rest,
    ∃ added,
      trace (fetch_attempts later url
               (sleep secs {| net := rest; trace := trace w ++ [EvGet url] |})).2
      = trace w ++ added
      ∧ Forall (λ e : REvent, is_write e = false) added).
  { intros secs rest.
    destruct (IH (sleep secs {| net := rest; trace := trace w ++ [EvGet url] |}))
      as (added & -> & Hall).
    exists ([EvGet url; EvSleep secs] ++ added). simpl.
    rewrite <- !app_assoc. split; [done|].
    repeat constructor; done. }
  assert (Hstop : ∃ added : list REvent,
            trace w ++ [EvGet url] = trace w ++ added
            ∧ Forall (λ e : REvent, is_write e = false) added).
  { exists [EvGet url]. split; [done|]. repeat constructor. }
  unfold session_get, emit.
  destruct (net w) as [|r rest]; cbn [fst snd net trace]; [apply Hlater|].
  destruct r as [resp| |]; try apply Hlater.
  destruct (status resp =? 200).
  { destruct (body resp); [apply Hstop | apply Hlater]. }
  destruct (status resp =? 429).
  { destruct (int_retry_after _); apply Hlater. }
  destruct (status resp =? 403); [apply Hstop | apply Hlater].
Qed.

Lemma grows_length P m added m' :
  grows P m added m' → length (posts m') = (length (posts m) + length added)%nat.
Proof. intros (-> & _). by rewrite length_app. Qed.

(** A loop writes the checkpoint only once its own [count] has reached a
    hundred. *)
Lemma paginate_quiet c base tf after count total m w :
  ∃ evs,
    trace (world_of (paginate fromtimestamp c base tf after count total m w))
    = trace w ++ evs
    ∧ ((count + length (posts (mem_of (paginate fromtimestamp c base tf after count
                                           total m w)))
        < 100 + length (posts m))%nat →
       Forall (λ e, is_write e = false) evs).
Proof.
  funelim (paginate fromtimestamp c base tf after count total m w);
    rewrite <- ?Heqcall;
    match goal with
    | Hf : _fetch_json ?u ?w0 = (_, ?w1) |- _ =>
        destruct (fetch_json_writes_nothing u w0) as (added & Hadded & Hq);
        rewrite Hf in Hadded; cbn [snd] in Hadded
    end;
    try (cbn [world_of mem_of]; exists added; by split).
  - apply page_children_grows in Heq as (added1 & Hg1 & Hcount).
    destruct (Hcount _ _ eq_refl) as [-> _].
    pose proof (grows_length _ _ _ _ Hg1) as Hlen1.
    destruct (truthy after'); cbn [world_of mem_of]; [|exists added; by split].
    destruct H as (evs & Ht & Hq').
    destruct (paginate_grows c base time_filter after'
                (count + length added1) total' m'
                (_delay c
                   (if (0 <? count + length added1)%nat
                       && ((count + length added1) `mod` 100 =? 0)%nat
                    then _save_checkpoint c m' w1 else w1))) as (added2 & Hg2 & _).
    pose proof (grows_length _ _ _ _ Hg2) as Hlen2.
    destruct ((0 <? count + length added1)%nat
              && ((count + length added1) `mod` 100 =? 0)%nat) eqn:Hsave.
    + exists (added ++ [EvWrite (checkpoint_file c)
                          (DocCheckpoint (seen_ids m') (length (posts m')));
                        EvRandomSleep (delay_min c) (delay_max c)] ++ evs).
      split.
      { rewrite Ht. unfold _delay, random_sleep, _save_checkpoint, write_file, emit.
        cbn [trace]. by rewrite Hadded, <- !app_assoc. }
      intros Hsmall. exfalso.
      apply andb_true_iff in Hsave as [Hpos Hmod].
      apply Nat.ltb_lt in Hpos. apply Nat.eqb_eq in Hmod.
      pose proof (Nat.div_mod_eq (count + length added1) 100).
      destruct ((count + length added1) `div` 100)%nat eqn:Hdiv; lia.
    + exists (added ++ [EvRandomSleep (delay_min c) (delay_max c)] ++ evs).
      split.
      { rewrite Ht. unfold _delay, random_sleep, emit. cbn [trace].
        by rewrite Hadded, <- !app_assoc. }
      intros Hsmall. apply Forall_app. split; [done|].
      constructor; [done|]. apply Hq'. lia.
Qed.

(** C7. For the sorts [top] and [controversial] the driver runs the
    pagination loop three times, for the time filters [month], [year] and
    [all] in this order.  Each run starts with no cursor and with its own
    progress counter at zero ([after = None], [count = 0]): its first
    request carries the time filter and no [after], and it saves a
    checkpoint only by the posts it accepts itself, none if they are fewer
    than a hundred, however many the runs before it accepted.  What a run
    leaves ([self.posts], [self.seen_ids], [total_count]) is handed
    unchanged to the next; and a run only appends to [posts] and adds to
    [seen_ids], its [total_count] growing by the number of posts
    appended. *)
Theorem sub_windows_reset_cursor_and_count :
  ∀ (c : Config) (sort : string) (m : Mem) (w : RWorld),
    sort = "top"%string ∨ sort = "controversial"%string →
    scrape_old_reddit_pagination fromtimestamp c sort m w
    = match paginate fromtimestamp c (listing_url (subreddit c) sort)
              (Some "month"%string) None 0 0 m w with
      | Raised m1 w1 => Raised m1 w1
      | Returned total1 m1 w1 =>
          match paginate fromtimestamp c (listing_url (subreddit c) sort)
                  (Some "year"%string) None 0 total1 m1 w1 with
          | Raised m2 w2 => Raised m2 w2
          | Returned total2 m2 w2 =>
              match paginate fromtimestamp c (listing_url (subreddit c) sort)
                      (Some "all"%string) None 0 total2 m2 w2 with
              | Raised m3 w3 => Raised m3 w3
              | Returned total3 m3 w3 => Returned total3 m3 w3
              end
          end
      end
    ∧ (∀ base filter total1 m1 w1,
          ∃ more,
            trace (world_of (paginate fromtimestamp c base (Some filter) None 0
                               total1 m1 w1))
            = trace w1
              ++ EvGet {| base_url := base;
                          query := [("limit"%string, PNum 100)]
                                   ++ opt_param "t"%string (Some filter) |} :: more)
    ∧ (∀ base filter total1 m1 w1,
          ∃ added,
            posts (mem_of (paginate fromtimestamp c base filter None 0 total1 m1 w1))
            = posts m1 ++ added
            ∧ seen_ids (mem_of (paginate fromtimestamp c base filter None 0 total1 m1 w1))
              = list_to_set (ids added) ∪ seen_ids m1
            ∧ (∀ total2,
                value_of (paginate fromtimestamp c base filter None 0 total1 m1 w1)
                = Some total2 →
                total2 = (total1 + length added)%nat)
            ∧ ∃ evs,
                trace (world_of (paginate fromtimestamp c base filter None 0 total1 m1 w1))
                = trace w1 ++ evs
                ∧ ((length added < 100)%nat → Forall (λ e, is_write e = false) evs)).
Proof.
  intros c sort m w Hsort. split; [|split].
  - unfold scrape_old_reddit_pagination.
    replace (time_filters sort)
      with [Some "month"%string; Some "year"%string; Some "all"%string]
      by (by destruct Hsort as [-> | ->]).
    simpl.
    repeat (destruct (paginate _ _ _ _ _ _ _ _ _); [|done]). done.
  - intros base filter total1 m1 w1.
    apply (paginate_first_request c base (Some filter) None 0 total1 m1 w1).
  - intros base filter total1 m1 w1.
    destruct (paginate_grows c base filter None 0 total1 m1 w1)
      as (added & Hg & Hc).
    pose proof (grows_length _ _ _ _ Hg) as Hlen.
    destruct Hg as (Hp & Hs & _).
    destruct (paginate_quiet c base filter None 0 total1 m1 w1) as (evs & Ht & Hq).
    exists added. repeat (split; [done|]).
    exists evs. split; [done|]. intros Hsmall. apply Hq. lia.
Qed.

(** The loop of the pagination driver, one turn unfolded. *)
Lemma paginate_page c base tf after count total m w :
  paginate fromtimestamp c base tf after count total m w
  = match _fetch_json (page_url base after tf) w with
    | (None, w1) | (Some Falsy, w1) | (Some (Listing [] _), w1) => Returned total m w1
    | (Some Malformed, w1) => Raised m w1
    | (Some (Listing (child :: rest) after'), w1) =>
        match page_children fromtimestamp c (child :: rest) m count total with
        | (None, m') => Raised m' w1
        | (Some (count', total'), m') =>
            if truthy after' then
              paginate fromtimestamp c base tf after' count' total' m'
                (_delay c (if (0 <? count')%nat && (count' mod 100 =? 0)%nat
                           then _save_checkpoint c m' w1 else w1))
            else Returned total' m' w1
        end
    end.
Proof.
  funelim (paginate fromtimestamp c base tf after count total m w);
    rewrite <- ?Heqcall;
    match goal with
    | Hf : _fetch_json _ _ = _ |- _ => rewrite Hf
    end; try done.
  all: by rewrite Heq.
Qed.

(** *** What a loop accepts from a page *)




(** *** The chunked search *)

Variable timestamp : datetime → option Z.

Lemma chunk_pages_grows c start end_ start_ts end_ts after count m w :
  ∃ added,
    grows (dated fromtimestamp (in_chunk start end_)) m added
      (mem_of (chunk_pages fromtimestamp c start end_ start_ts end_ts after count m w))
    ∧ ∀ count', value_of (chunk_pages fromtimestamp c start end_ start_ts end_ts after count m w)
                = Some count' →
        count' = (count + length added)%nat.
Proof.
  funelim (chunk_pages fromtimestamp c start end_ start_ts end_ts after count m w);
    rewrite <- ?Heqcall;
    try (exists []; split; [apply grows_refl|]; cbn [value_of];
         first [done | intros ? [= <-]; simpl; lia]).
  - apply chunk_children_grows in Heq as (added1 & Hg1 & Hc1).
    pose proof (Hc1 _ eq_refl) as ->.
    destruct (truthy after').
    + destruct H as (added2 & Hg2 & Hc2).
      exists (added1 ++ added2). split; [by eapply grows_trans|].
      intros t Ht. rewrite (Hc2 t Ht), length_app. lia.
    + exists added1. split; [done|]. by intros ? [= <-].
  - apply chunk_children_grows in Heq as (added1 & Hg1 & _).
    exists added1. split; [done|]. done.
Qed.

Lemma in_chunk_in_date_range c start end_ p :
  start_date c ≤ start → end_ ≤ end_date c →
  dated fromtimestamp (in_chunk start end_) p → dated fromtimestamp (in_date_range c) p.
Proof.
  intros Hs He (ts & Hts & Hin). exists ts. split; [done|].
  unfold in_chunk, in_date_range in *.
  apply andb_true_iff in Hin as [?%Z.leb_le ?%Z.ltb_lt].
  apply andb_true_iff. split; [apply Z.leb_le | apply Z.leb_le]; lia.
Qed.

(** The end of a window, when the sum does not overflow. *)
Lemma chunk_end_some chunk_days s e current_end :
  chunk_end chunk_days s e = Some current_end →
  current_end = Z.min (s + timedelta_days (Z.pos chunk_days)) e
  ∧ s + timedelta_days (Z.pos chunk_days) ≤ datetime_max.
Proof.
  unfold chunk_end, add_days.
  destruct (_ && _) eqn:Hfit; [|done]. intros [= <-]. split; [done|].
  apply andb_true_iff in Hfit as [_ ?%Z.leb_le]. done.
Qed.

Lemma chunk_end_fits chunk_days s e :
  datetime_min ≤ s → s + timedelta_days (Z.pos chunk_days) ≤ datetime_max →
  chunk_end chunk_days s e = Some (Z.min (s + timedelta_days (Z.pos chunk_days)) e).
Proof.
  intros Hmin Hmax. unfold chunk_end, add_days.
  destruct (Z.leb_spec datetime_min (s + timedelta_days (Z.pos chunk_days)));
    [|unfold timedelta_days, day_us in *; lia].
  by destruct (Z.leb_spec (s + timedelta_days (Z.pos chunk_days)) datetime_max); [|lia].
Qed.

Lemma scrape_chunk_grows c start end_ m w :
  ∃ added,
    grows (dated fromtimestamp (in_chunk start end_)) m added
      (mem_of (_scrape_chunk fromtimestamp timestamp c start end_ m w))
    ∧ ∀ count', value_of (_scrape_chunk fromtimestamp timestamp c start end_ m w)
                = Some count' →
        count' = length added.
Proof.
  unfold _scrape_chunk.
  destruct (timestamp start) as [start_ts|];
    [|by exists []; split; [apply grows_refl|]].
  destruct (timestamp end_) as [end_ts|];
    [|by exists []; split; [apply grows_refl|]].
  destruct (chunk_pages_grows c start end_ start_ts end_ts None 0 m w)
    as (added & Hg & Hc).
  exists added. split; [done|]. intros count' Hv. by rewrite (Hc _ Hv).
Qed.

Lemma timedelta_days_pos chunk_days : 0 < timedelta_days (Z.pos chunk_days).
Proof. unfold timedelta_days, day_us. lia. Qed.

Lemma chunk_loop_grows chunk_days c current_start total m w :
  start_date c ≤ current_start →
  ∃ added,
    grows (dated fromtimestamp (in_date_range c)) m added
      (mem_of (chunk_loop fromtimestamp timestamp chunk_days c current_start total m w))
    ∧ ∀ total', value_of (chunk_loop fromtimestamp timestamp chunk_days c current_start
                            total m w) = Some total' →
        total' = (total + length added)%nat.
Proof.
  funelim (chunk_loop fromtimestamp timestamp chunk_days c current_start total m w);
    rewrite <- ?Heqcall; intros Hstart; ltb_facts;
    try (exists []; split; [apply grows_refl|]; cbn [value_of];
         first [done | intros ? [= <-]; simpl; lia]);
    pose proof (timedelta_days_pos chunk_days);
    match goal with
    | He : chunk_end _ _ _ = Some _ |- _ =>
        pose proof (chunk_end_some _ _ _ _ He) as [Hce _]
    end.
  - pose proof (scrape_chunk_grows c current_start current_end m w)
      as (added1 & Hg1 & Hc1).
    rewrite Heq in Hg1, Hc1. simpl in Hg1, Hc1.
    pose proof (Hc1 _ eq_refl) as ->.
    destruct H as (added2 & Hg2 & Hc2); [lia|].
    exists (added1 ++ added2). split.
    + eapply grows_trans; [|exact Hg2].
      eapply grows_weaken; [|exact Hg1].
      intros p. apply in_chunk_in_date_range; [done|]. lia.
    + intros t Ht. rewrite (Hc2 t Ht), length_app. simpl. lia.
  - pose proof (scrape_chunk_grows c current_start current_end m w)
      as (added1 & Hg1 & _).
    rewrite Heq in Hg1. simpl in Hg1.
    exists added1. split; [|done].
    eapply grows_weaken; [|exact Hg1].
    intros p. apply in_chunk_in_date_range; [done|]. lia.
Qed.

(** *** The windows of the chunked search *)

Lemma chunk_windows_done chunk_days s e :
  e ≤ s → chunk_windows chunk_days s e = ([], false).
Proof.
  intros Hle. funelim (chunk_windows chunk_days s e); ltb_facts; try lia. done.
Qed.

Lemma chunk_windows_overflow chunk_days s e :
  s < e → chunk_end chunk_days s e = None →
  chunk_windows chunk_days s e = ([], true).
Proof.
  intros Hlt' Hnone. funelim (chunk_windows chunk_days s e); ltb_facts;
    try lia; congruence.
Qed.

Lemma chunk_windows_step chunk_days s e current_end :
  s < e → chunk_end chunk_days s e = Some current_end →
  chunk_windows chunk_days s e
  = ((s, current_end) :: (chunk_windows chunk_days current_end e).1,
     (chunk_windows chunk_days current_end e).2).
Proof.
  intros Hlt' Hsome. funelim (chunk_windows chunk_days s e); ltb_facts;
    try lia; try congruence.
  rewrite Hend in Hsome. by injection Hsome as <-.
Qed.

(** The windows of a range that ends a chunk or more before
    [datetime.max]. *)
Lemma chunk_windows_chained chunk_days s e :
  datetime_min ≤ s → s ≤ e →
  e + timedelta_days (Z.pos chunk_days) ≤ datetime_max →
  (chunk_windows chunk_days s e).2 = false
  ∧ chained s e (chunk_windows chunk_days s e).1
  ∧ Forall (λ win, win.2 = Z.min (win.1 + timedelta_days (Z.pos chunk_days)) e
                   ∧ win.1 < win.2)
      (chunk_windows chunk_days s e).1.
Proof.
  funelim (chunk_windows chunk_days s e); rewrite <- ?Heqcall;
    intros Hmin Hle Hmax; ltb_facts;
    pose proof (timedelta_days_pos chunk_days);
    try match goal with
        | He : chunk_end _ _ _ = None |- _ =>
            pose proof He as Hnone; rewrite chunk_end_fits in Hnone by lia; done
        end.
  - cbn [fst snd]. split; [done|]. split; [simpl; lia|constructor].
  - pose proof (chunk_end_some _ _ _ _ Hend) as [Hce _].
    destruct H as (Hflag & Hch & Hall); [lia..|].
    cbn [fst snd]. split; [done|]. split; [done|].
    constructor; [simpl; split; [done|lia] | done].
Qed.

Lemma chained_le s e ws :
  chained s e ws → Forall (λ win, win.1 < win.2) ws → s ≤ e.
Proof.
  revert s. induction ws as [|[a b] rest IH]; simpl; intros s.
  - intros ->. lia.
  - intros [-> Hrest] [Hab Hall]%Forall_cons. simpl in Hab.
    specialize (IH b Hrest Hall). lia.
Qed.

Lemma chained_cover s e ws t :
  chained s e ws → Forall (λ win, win.1 < win.2) ws →
  (s ≤ t < e ↔ Exists (λ win, win.1 ≤ t < win.2) ws).
Proof.
  revert s. induction ws as [|[a b] rest IH]; simpl; intros s.
  - intros -> _. rewrite Exists_nil. lia.
  - intros [-> Hrest] [Hab Hall]%Forall_cons. simpl in Hab.
    pose proof (chained_le _ _ _ Hrest Hall).
    rewrite Exists_cons, <- (IH b Hrest Hall). simpl. lia.
Qed.

Lemma chained_starts s e ws j win :
  chained s e ws → Forall (λ win, win.1 < win.2) ws →
  ws !! j = Some win → s ≤ win.1.
Proof.
  revert s j. induction ws as [|[a b] rest IH]; simpl; intros s j; [done|].
  intros [-> Hrest] [Hab Hall]%Forall_cons. simpl in Hab.
  destruct j as [|j]; simpl.
  - intros [= <-]. simpl. lia.
  - intros Hj. specialize (IH b j Hrest Hall Hj). lia.
Qed.

Lemma chained_apart s e ws i j w1 w2 :
  chained s e ws → Forall (λ win, win.1 < win.2) ws →
  ws !! i = Some w1 → ws !! j = Some w2 → (i < j)%nat → w1.2 ≤ w2.1.
Proof.
  revert s i j. induction ws as [|[a b] rest IH]; simpl; intros s i j; [done|].
  intros [-> Hrest] [Hab Hall]%Forall_cons. simpl in Hab.
  destruct i as [|i], j as [|j]; simpl; try lia.
  - intros [= <-] Hj _. simpl. by eapply chained_starts.
  - intros Hi Hj Hlt. eapply IH; eauto. lia.
Qed.

Lemma chunk_loop_windows chunk_days c current_start total m w :
  chunk_loop fromtimestamp timestamp chunk_days c current_start total m w
  = for_windows fromtimestamp timestamp c
      (chunk_windows chunk_days current_start (end_date c)).1
      (chunk_windows chunk_days current_start (end_date c)).2 total m w.
Proof.
  funelim (chunk_loop fromtimestamp timestamp chunk_days c current_start total m w);
    rewrite <- ?Heqcall; ltb_facts;
    first [ by rewrite chunk_windows_done
          | by rewrite chunk_windows_overflow
          | rewrite (chunk_windows_step _ _ _ current_end) by done; simpl;
            by rewrite Heq ].
Qed.

(** C1. For a range from a date [start] to [end_], [start <= end_], that
    ends a chunk or more before [datetime.max], and a chunk of
    [chunk_days] days (a positive number), the windows the loop of
    [scrape_search_api_chunked] goes through are [(s, min(s + width, end_))],
    none of them empty, following one another from [start] to [end_]; so
    an instant lies in [start, end_) exactly when it lies in one of the
    half-open windows, and windows do not overlap (an earlier one ends no
    later than a later one starts).  The loop of the driver runs
    [_scrape_chunk] then [_delay] on each of its windows in this order,
    and the driver itself is that loop with a width of 7 days over
    [self.start_date .. self.end_date].  For 2024-01-01 to 2024-01-15 the
    windows are 01-01..01-08 and 01-08..01-15.  For a range that ends
    within a chunk of [datetime.max] the sum [current_start + timedelta]
    overflows before [min] clips it: for 9999-12-28 to 9999-12-31 the
    driver raises before its first window, having requested nothing. *)
Theorem chunk_windows_partition :
  (∀ (chunk_days : positive) (start end_ : datetime),
      datetime_min ≤ start → start ≤ end_ →
      end_ + timedelta_days (Z.pos chunk_days) ≤ datetime_max →
      (chunk_windows chunk_days start end_).2 = false
      ∧ chained start end_ (chunk_windows chunk_days start end_).1
      ∧ Forall (λ win, win.2 = Z.min (win.1 + timedelta_days (Z.pos chunk_days)) end_
                       ∧ win.1 < win.2)
          (chunk_windows chunk_days start end_).1
      ∧ (∀ t, start ≤ t < end_
              ↔ Exists (λ win, win.1 ≤ t < win.2) (chunk_windows chunk_days start end_).1)
      ∧ (∀ i j w1 w2,
            (chunk_windows chunk_days start end_).1 !! i = Some w1 →
            (chunk_windows chunk_days start end_).1 !! j = Some w2 →
            (i < j)%nat → w1.2 ≤ w2.1))
  ∧ (∀ chunk_days c start total m w,
        chunk_loop fromtimestamp timestamp chunk_days c start total m w
        = for_windows fromtimestamp timestamp c
            (chunk_windows chunk_days start (end_date c)).1
            (chunk_windows chunk_days start (end_date c)).2 total m w)
  ∧ (∀ c m w,
        scrape_search_api_chunked fromtimestamp timestamp c m w
        = for_windows fromtimestamp timestamp c
            (chunk_windows 7 (start_date c) (end_date c)).1
            (chunk_windows 7 (start_date c) (end_date c)).2 0 m w)
  ∧ chunk_windows 7 (datetime_ymd 2024 1 1) (datetime_ymd 2024 1 15)
    = ([(datetime_ymd 2024 1 1, datetime_ymd 2024 1 8);
        (datetime_ymd 2024 1 8, datetime_ymd 2024 1 15)], false)
  ∧ chunk_windows 7 (datetime_ymd 9999 12 28) (datetime_ymd 9999 12 31) = ([], true)
  ∧ (∀ c m w,
        start_date c = datetime_ymd 9999 12 28 →
        end_date c = datetime_ymd 9999 12 31 →
        scrape_search_api_chunked fromtimestamp timestamp c m w = Raised m w).
Proof.
  split.
  { intros chunk_days start end_ Hmin Hle Hmax.
    destruct (chunk_windows_chained chunk_days start end_ Hmin Hle Hmax)
      as (Hflag & Hch & Hall).
    assert (Hne : Forall (λ win : datetime * datetime, win.1 < win.2)
                    (chunk_windows chunk_days start end_).1).
    { eapply Forall_impl; [exact Hall|]. by intros win [_ ?]. }
    split; [done|]. split; [done|]. split; [done|].
    split; [intros t; exact (chained_cover start end_ _ t Hch Hne)|].
    intros i j w1 w2. exact (chained_apart start end_ _ i j w1 w2 Hch Hne). }
  split; [intros; apply chunk_loop_windows|].
  split; [intros; apply chunk_loop_windows|].
  split; [vm_compute; reflexivity|].
  assert (Hover : chunk_windows 7 (datetime_ymd 9999 12 28) (datetime_ymd 9999 12 31)
                  = ([], true)) by (vm_compute; reflexivity).
  split; [exact Hover|].
  intros c m w Hs He. unfold scrape_search_api_chunked.
  rewrite chunk_loop_windows, Hs, He, Hover. done.
Qed.

(** C4. A scraper as [__init__] leaves it has no post and the seen
    identifiers of its checkpoint (for a checkpoint as [_save_checkpoint]
    writes it, exactly the strings of its [seen_ids]).  Either loop
    appends a post only when its identifier is not in [seen_ids], and puts
    the identifier into [seen_ids] as it does.  Hence whatever the network
    answers and whether the run returns or raises, after the pagination
    driver, the chunked driver, [scrape], or [main] as a whole, no two
    posts of the collection share an identifier, none of them has an
    identifier the checkpoint held, and [seen_ids] is the checkpoint's
    set plus the identifiers of the posts. *)
Theorem no_identifier_collected_twice :
  (∀ c f, ∃ data seen0, init c f = Ok (data, {| posts := []; seen_ids := seen0 |}))
  ∧ (∀ c seen stamp count,
        init c (Contents (Some (checkpoint_doc seen stamp count)))
        = Ok (checkpoint_doc seen stamp count,
              {| posts := []; seen_ids := list_to_set (KStr <$> seen) |}))
  ∧ (∀ in_range m child m',
        visit_child fromtimestamp in_range m child = Accepted m' →
        ∃ post, posts m' = posts m ++ [post]
                ∧ (id post ∉ seen_ids m)
                ∧ seen_ids m' = {[id post]} ∪ seen_ids m)
  ∧ (∀ c seen0 w,
        let m0 := {| posts := []; seen_ids := seen0 |} in
        (∀ sort, collected_once seen0
                   (mem_of (scrape_old_reddit_pagination fromtimestamp c sort m0 w)))
        ∧ collected_once seen0
            (mem_of (scrape_search_api_chunked fromtimestamp timestamp c m0 w))
        ∧ collected_once seen0 (mem_of (scrape fromtimestamp c m0 w)))
  ∧ (∀ a stamp f w,
        ∃ data seen0,
          init (config_of_args a stamp) f
          = Ok (data, {| posts := []; seen_ids := seen0 |})
          ∧ collected_once seen0 (mem_of (main fromtimestamp a stamp f w))).
Proof.
  split; [apply init_fresh|]. split; [apply init_from_checkpoint|].
  split.
  { intros in_range m child m'
      (post & ts & _ & Hseen & _ & _ & ->)%visit_child_accepted.
    by exists post. }
  split.
  { intros c seen0 w m0. split; [intros sort|split].
    - destruct (for_time_filters_grows c (listing_url (subreddit c) sort)
                  (time_filters sort) 0 m0 w) as (added & Hg & _).
      by eapply grows_collected_once.
    - destruct (chunk_loop_grows 7 c (start_date c) 0 m0 w) as (added & Hg & _);
        [lia|].
      by eapply grows_collected_once.
    - destruct (scrape_grows c m0 w) as (added & Hg & _).
      by eapply grows_collected_once. }
  intros a stamp f w.
  destruct (init_fresh (config_of_args a stamp) f) as (data & seen0 & Hinit).
  exists data, seen0. split; [done|].
  unfold main. rewrite Hinit.
  destruct (scrape_grows (config_of_args a stamp)
              {| posts := []; seen_ids := seen0 |} w) as (added & Hg & _).
  apply grows_collected_once in Hg.
  destruct (scrape _ _ _ _) as [n m1 w1|m1 w1]; simpl in *; [|done].
  destruct (save_output_mem (config_of_args a stamp) m1 w1) as [Hperm Hseen].
  by eapply collected_once_perm.
Qed.




End DriverFacts.

(** ** Concrete runs *)

Lemma chunk_windows_partition_witness :
  (Reddit.chunk_windows 7 (datetime_ymd 2024 1 1) (datetime_ymd 2024 1 15)).2 = false
  ∧ ∀ t, datetime_ymd 2024 1 1 ≤ t < datetime_ymd 2024 1 15
         ↔ Exists (λ win, win.1 ≤ t < win.2)
             (Reddit.chunk_windows 7 (datetime_ymd 2024 1 1) (datetime_ymd 2024 1 15)).1.
Proof.
  destruct (chunk_windows_partition utc utc_timestamp) as [Hwindows _].
  destruct (Hwindows 7%positive (datetime_ymd 2024 1 1) (datetime_ymd 2024 1 15))
    as (Hflag & _ & _ & Hcover & _).
  - vm_compute. discriminate.
  - vm_compute. discriminate.
  - vm_compute. discriminate.
  - split; [exact Hflag | exact Hcover].
Defined.

Example resumed_run_collects_each_post_once :
  ∃ w',
    Reddit.main utc demo_args "0"%string
      (Reddit.Contents (Some (checkpoint_doc ["a"%string] 0 1)))
      {| net := demo_script; trace := [] |}
    = Reddit.Returned tt
        {| Reddit.posts := [demo_post "b" jan_2; demo_post "c" jan_2];
           Reddit.seen_ids := {[KStr "a"%string; KStr "b"%string; KStr "c"%string]} |}
        w'.
Proof.
  eexists. vm_compute. reflexivity.
Qed.

Lemma no_identifier_collected_twice_witness :
  ∃ post,
    [demo_post "b" jan_2] = [] ++ [post]
    ∧ (Reddit.id post ∉ ({[KStr "a"%string]} : gset Key))
    ∧ ({[KStr "b"%string]} ∪ {[KStr "a"%string]} : gset Key)
      = {[Reddit.id post]} ∪ {[KStr "a"%string]}.
Proof.
  destruct (no_identifier_collected_twice utc utc_timestamp) as (_ & _ & Hstep & _).
  exact (Hstep (Reddit.in_date_range demo_config)
           {| Reddit.posts := []; Reddit.seen_ids := {[KStr "a"%string]} |}
           (thing "b" jan_2)
           {| Reddit.posts := [demo_post "b" jan_2];
              Reddit.seen_ids := {[KStr "b"%string]} ∪ {[KStr "a"%string]} |}
           eq_refl).
Defined.

Lemma sub_windows_reset_cursor_and_count_witness :
  Reddit.scrape_old_reddit_pagination utc demo_config "top"%string
    {| Reddit.posts := []; Reddit.seen_ids := ∅ |} {| net := demo_script; trace := [] |}
  = match Reddit.paginate utc demo_config
            (Reddit.listing_url (Reddit.subreddit demo_config) "top"%string)
            (Some "month"%string) None 0 0
            {| Reddit.posts := []; Reddit.seen_ids := ∅ |}
            {| net := demo_script; trace := [] |} with
    | Reddit.Raised m1 w1 => Reddit.Raised m1 w1
    | Reddit.Returned total1 m1 w1 =>
        match Reddit.paginate utc demo_config
                (Reddit.listing_url (Reddit.subreddit demo_config) "top"%string)
                (Some "year"%string) None 0 total1 m1 w1 with
        | Reddit.Raised m2 w2 => Reddit.Raised m2 w2
        | Reddit.Returned total2 m2 w2 =>
            match Reddit.paginate utc demo_config
                    (Reddit.listing_url (Reddit.subreddit demo_config) "top"%string)
                    (Some "all"%string) None 0 total2 m2 w2 with
            | Reddit.Raised m3 w3 => Reddit.Raised m3 w3
            | Reddit.Returned total3 m3 w3 => Reddit.Returned total3 m3 w3
            end
        end
    end.
Proof.
  apply (sub_windows_reset_cursor_and_count utc demo_config "top"%string).
  by left.
Defined.

(** The claim of C7 fails where the counter matters.  On [count_script]
    the first sub-window accepts a hundred posts, so its [count] ends at
    100; the second reads a page that adds nothing and has a cursor.  The
    driver saves no checkpoint there, its [count] being back at 0; a
    second sub-window that had kept the count of 100, with only the cursor
    reset, would save one. *)
Lemma count_is_reset_with_the_cursor :
  value_of (Reddit.paginate utc demo_config
              (Reddit.listing_url "python"%string "top"%string)
              (Some "month"%string) None 0 0
              {| Reddit.posts := []; Reddit.seen_ids := ∅ |}
              {| net := count_script; trace := [] |})
  = Some 100%nat
  ∧ existsb is_write
      (trace (world_of (Reddit.scrape_old_reddit_pagination utc demo_config "top"%string
                          {| Reddit.posts := []; Reddit.seen_ids := ∅ |}
                          {| net := count_script; trace := [] |})))
    = false
  ∧ existsb is_write
      (trace (world_of
         (Reddit.paginate utc demo_config
            (Reddit.listing_url "python"%string "top"%string)
            (Some "year"%string) None 100 100
            (mem_of (Reddit.paginate utc demo_config
                       (Reddit.listing_url "python"%string "top"%string)
                       (Some "month"%string) None 0 0
                       {| Reddit.posts := []; Reddit.seen_ids := ∅ |}
                       {| net := count_script; trace := [] |}))
            (world_of (Reddit.paginate utc demo_config
                         (Reddit.listing_url "python"%string "top"%string)
                         (Some "month"%string) None 0 0
                         {| Reddit.posts := []; Reddit.seen_ids := ∅ |}
                         {| net := count_script; trace := [] |})))))
    = true.
Proof.
  split; [vm_compute; reflexivity|]. split; vm_compute; reflexivity.
Qed.


(** * Further properties *)

(** ** The fetch loops *)

Lemma fetch_attempts_requests attempts url w :
  ∃ added,
    trace (Reddit.fetch_attempts attempts url w).2 = trace w ++ added
    ∧ (length (filter (λ e, is_get e = true) added) ≤ length attempts)%nat.
Proof.
  revert w. induction attempts as [|a later IH]; intros w; cbn [Reddit.fetch_attempts].
  { exists []. by rewrite app_nil_r. }
  assert (Hlater : ∀ secs rest,
    ∃ added,
      trace (Reddit.fetch_attempts later url
               (sleep secs {| net := rest; trace := trace w ++ [EvGet url] |})).2
      = trace w ++ added
      ∧ (length (filter (λ e, is_get e = true) added) ≤ length (a :: later))%nat).
  { intros secs rest.
    destruct (IH (sleep secs {| net := rest; trace := trace w ++ [EvGet url] |}))
      as (added & -> & Hlen).
    exists ([EvGet url; EvSleep secs] ++ added). split.
    - simpl. by rewrite <- !app_assoc.
    - rewrite filter_app, length_app. simpl. lia. }
  assert (Hstop : ∃ added : list Reddit.REvent,
            trace w ++ [EvGet url] = trace w ++ added
            ∧ (length (filter (λ e, is_get e = true) added)
               ≤ length (a :: later))%nat).
  { exists [EvGet url]. split; [done|]. simpl. lia. }
  unfold session_get, emit.
  destruct (net w) as [|r rest]; cbn [fst snd net trace]; [apply Hlater|].
  destruct r as [resp| |]; try apply Hlater.
  destruct (status resp =? 200).
  { destruct (body resp); [apply Hstop | apply Hlater]. }
  destruct (status resp =? 429).
  { destruct (Reddit.int_retry_after _); apply Hlater. }
  destruct (status resp =? 403); [apply Hstop | apply Hlater].
Qed.

(** X1. One call of [_fetch_json] makes at most [max_retries] = 3
    requests, whatever the server answers. *)
Theorem fetch_json_makes_at_most_three_requests :
  ∀ url w,
    ∃ added,
      trace (Reddit._fetch_json url w).2 = trace w ++ added
      ∧ (length (filter (λ e, is_get e = true) added) ≤ 3)%nat.
Proof.
  intros url w. apply (fetch_attempts_requests (seq 0 Reddit.max_retries) url w).
Qed.





(** What a fetch returns was the readable body of a 200 answer, the last
    reply it consumed; the replies before it were retried after. *)
Lemma fetch_attempts_some attempts url w data :
  (Reddit.fetch_attempts attempts url w).1 = Some data →
  ∃ consumed resp,
    net w = consumed ++ Resp resp :: net (Reddit.fetch_attempts attempts url w).2
    ∧ status resp = 200 ∧ body resp = Some data
    ∧ (length consumed < length attempts)%nat
    ∧ Forall (λ r, is_Some (retry_wait r)) consumed.
Proof.
  revert w. induction attempts as [|a later IH]; intros w; cbn [Reddit.fetch_attempts];
    [done|].
  assert (Hlater : ∀ secs r rest t,
    is_Some (retry_wait r) →
    (Reddit.fetch_attempts later url
       (sleep secs {| net := rest; trace := t |})).1 = Some data →
    ∃ consumed resp,
      r :: rest = consumed ++ Resp resp
                  :: net (Reddit.fetch_attempts later url
                            (sleep secs {| net := rest; trace := t |})).2
      ∧ status resp = 200 ∧ body resp = Some data
      ∧ (length consumed < length (a :: later))%nat
      ∧ Forall (λ r, is_Some (retry_wait r)) consumed).
  { intros secs r rest t Hr H.
    apply IH in H as (consumed & resp & Hc & Hs & Hb & Hlen & Hall).
    simpl in Hc. exists (r :: consumed), resp. rewrite Hc at 1.
    split; [done|]. split; [done|]. split; [done|]. split; [simpl; lia|].
    by constructor. }
  unfold session_get, emit.
  destruct (net w) as [|r rest]; cbn [fst snd net trace].
  { intros H. apply IH in H as (consumed & resp & Hc & _). simpl in Hc.
    by destruct consumed. }
  destruct r as [resp| |]; try (apply Hlater; by eexists).
  destruct (status resp =? 200) eqn:H200.
  { destruct (body resp) as [d|] eqn:Hbody.
    - intros [= ->]. exists [], resp. simpl. split; [done|]. split; [lia|].
      split; [done|]. split; [lia|constructor].
    - apply Hlater. simpl. rewrite H200, Hbody. by eexists. }
  destruct (status resp =? 429) eqn:H429.
  { destruct (Reddit.int_retry_after _); apply Hlater; simpl; rewrite H200, H429;
      by eexists. }
  destruct (status resp =? 403) eqn:H403; [done|].
  apply Hlater. simpl. rewrite H200, H429, H403. by eexists.
Qed.

(** The same for [fetch_html]. *)
Lemma fetch_html_some cfg url retries w html :
  (Market.fetch_html cfg url retries w).1 = Some html →
  ∃ consumed resp,
    net w = consumed ++ Resp resp :: net (Market.fetch_html cfg url retries w).2
    ∧ status resp = 200 ∧ body resp = Some html
    ∧ (length consumed ≤ Market.max_retries cfg - retries)%nat
    ∧ Forall (λ r, market_retries r = true) consumed.
Proof.
  remember (Market.max_retries cfg - retries)%nat as k eqn:Hk.
  revert retries w Hk.
  induction k as [k IH] using lt_wf_ind. intros retries w Hk.
  rewrite (Market.fetch_html_equation_1 cfg url retries).
  assert (Hagain : ∀ r rest t,
    market_retries r = true →
    (retries < Market.max_retries cfg)%nat →
    (Market.fetch_html cfg url (retries + 1) {| net := rest; trace := t |}).1
    = Some html →
    ∃ consumed resp,
      r :: rest = consumed ++ Resp resp
                  :: net (Market.fetch_html cfg url (retries + 1)
                            {| net := rest; trace := t |}).2
      ∧ status resp = 200 ∧ body resp = Some html
      ∧ (length consumed ≤ k)%nat
      ∧ Forall (λ r, market_retries r = true) consumed).
  { intros r rest t Hr Hlt H.
    apply (IH (Market.max_retries cfg - (retries + 1))%nat ltac:(lia)
              (retries + 1)%nat _ eq_refl) in H
      as (consumed & resp & Hc & Hs & Hb & Hlen & Hall).
    simpl in Hc. exists (r :: consumed), resp. rewrite Hc at 1.
    split; [done|]. split; [done|]. split; [done|]. split; [simpl; lia|].
    by constructor. }
  unfold session_get, Market.random_delay, random_sleep, emit. simpl.
  destruct (net w) as [|r rest]; simpl; [done|].
  destruct r as [resp| |]; simpl; [| |done].
  - destruct (status resp =? 200) eqn:H200.
    { intros Hbody. exists [], resp. simpl. split; [done|]. split; [lia|].
      split; [done|]. split; [lia|constructor]. }
    destruct (status resp =? 429) eqn:H429.
    + destruct (lt_dec retries (Market.max_retries cfg)); [|done].
      apply Hagain; [|done]. simpl. by rewrite H200, H429.
    + by destruct (status resp =? 403).
  - destruct (lt_dec retries (Market.max_retries cfg)); [|done].
    by apply Hagain.
Qed.

(** X3. A fetch never makes data up.  What [_fetch_json] returns is the
    decoded body of a 200 answer, the last reply it consumed; before it
    came at most two replies, each of a kind the loop retries after.
    What [fetch_html] returns is the text of a 200 answer, the last reply
    it consumed; before it came at most [max_retries] replies, all 429s
    or timeouts. *)
Theorem a_fetch_returns_the_body_of_a_200 :
  (∀ url w data,
      (Reddit._fetch_json url w).1 = Some data →
      ∃ consumed resp,
        net w = consumed ++ Resp resp :: net (Reddit._fetch_json url w).2
        ∧ status resp = 200 ∧ body resp = Some data
        ∧ (length consumed < 3)%nat
        ∧ Forall (λ r, is_Some (retry_wait r)) consumed)
  ∧ (∀ cfg url w html,
      (Market.fetch_html cfg url 0 w).1 = Some html →
      ∃ consumed resp,
        net w = consumed ++ Resp resp :: net (Market.fetch_html cfg url 0 w).2
        ∧ status resp = 200 ∧ body resp = Some html
        ∧ (length consumed ≤ Market.max_retries cfg)%nat
        ∧ Forall (λ r, market_retries r = true) consumed).
Proof.
  split.
  - intros url w data. apply fetch_attempts_some.
  - intros cfg url w html Hsome.
    destruct (fetch_html_some _ _ _ _ _ Hsome)
      as (consumed & resp & Hc & Hs & Hb & Hlen & Hall).
    exists consumed, resp. repeat (split; [done|]). split; [lia|done].
Qed.

(** One call of [fetch_html] that is retried. *)
Lemma fetch_html_retry cfg url retries r rest t :
  market_retries r = true →
  (retries < Market.max_retries cfg)%nat →
  Market.fetch_html cfg url retries {| net := r :: rest; trace := t |}
  = Market.fetch_html cfg url (retries + 1)
      {| net := rest; trace := t ++ retried_calls cfg url retries [r] |}.
Proof.
  intros Hr Hlt. rewrite (Market.fetch_html_equation_1 cfg url retries).
  simpl. destruct r as [resp| |]; simpl in Hr; [| |done].
  - apply andb_true_iff in Hr as [H200 H429].
    apply negb_true_iff in H200. rewrite H200, H429.
    destruct (lt_dec retries (Market.max_retries cfg)); [|lia].
    unfold sleep, emit. simpl. by rewrite trace_snoc3.
  - destruct (lt_dec retries (Market.max_retries cfg)); [|lia].
    by rewrite trace_snoc2.
Qed.

Lemma retried_calls_app cfg url retries rs rs' :
  retried_calls cfg url retries (rs ++ rs')
  = retried_calls cfg url retries rs
    ++ retried_calls cfg url (retries + length rs) rs'.
Proof.
  revert retries. induction rs as [|r rest IH]; intros retries; simpl.
  - by rewrite Nat.add_0_r.
  - rewrite IH, <- !app_assoc. simpl.
    by replace (retries + 1 + length rest)%nat with (retries + S (length rest))%nat by lia.
Qed.

Lemma fetch_html_retries cfg url retries rs rest t :
  Forall (λ r, market_retries r = true) rs →
  (retries + length rs ≤ Market.max_retries cfg)%nat →
  Market.fetch_html cfg url retries {| net := rs ++ rest; trace := t |}
  = Market.fetch_html cfg url (retries + length rs)
      {| net := rest; trace := t ++ retried_calls cfg url retries rs |}.
Proof.
  intros Hall. revert retries t.
  induction Hall as [|r rs Hr _ IH]; intros retries t Hlen; simpl in *.
  - by rewrite Nat.add_0_r, app_nil_r.
  - assert (Hlt : (retries < Market.max_retries cfg)%nat) by lia.
    assert (Hlen' : (retries + 1 + length rs ≤ Market.max_retries cfg)%nat) by lia.
    rewrite (fetch_html_retry _ _ _ _ _ _ Hr Hlt), (IH _ _ Hlen').
    replace (retries + 1 + length rs)%nat with (retries + S (length rs))%nat by lia.
    rewrite <- app_assoc. simpl. by rewrite app_nil_r.
Qed.

(** X4. [fetch_html] gets through rate limits and timeouts as long as its
    counter allows: after [k] replies that are 429s or timeouts, with
    [retries + k <= max_retries], a 200 answer is returned (its text, or
    [None] if the text cannot be read) and the replies after it are
    untouched; each call starts with the random delay, and the sleep after
    the [i]-th 429 grows as [(retries + 1) * 10] with the counter.  A 429
    or a timeout met with the counter at [max_retries] is not retried. *)
Theorem fetch_html_retries_then_answers :
  ∀ cfg url retries rs resp rest t,
    Forall (λ r, market_retries r = true) rs →
    (retries + length rs ≤ Market.max_retries cfg)%nat →
    (status resp = 200 →
     Market.fetch_html cfg url retries {| net := rs ++ Resp resp :: rest; trace := t |}
     = (body resp,
        {| net := rest;
           trace := t ++ retried_calls cfg url retries rs
                    ++ [EvRandomSleep (Market.base_delay cfg).1 (Market.base_delay cfg).2;
                        EvGet (Market.page url)] |}))
    ∧ (∀ r, market_retries r = true →
            (retries + length rs = Market.max_retries cfg)%nat →
            Market.fetch_html cfg url retries {| net := rs ++ r :: rest; trace := t |}
            = (None,
               {| net := rest;
                  trace := t ++ retried_calls cfg url retries rs
                           ++ [EvRandomSleep (Market.base_delay cfg).1
                                             (Market.base_delay cfg).2;
                               EvGet (Market.page url)] |})).
Proof.
  intros cfg url retries rs resp rest t Hall Hlen. split.
  - intros H200. rewrite (fetch_html_retries _ _ _ _ _ _ Hall Hlen).
    rewrite (Market.fetch_html_equation_1 cfg url). simpl.
    rewrite H200. simpl. by rewrite trace_snoc2, <- app_assoc.
  - intros r Hr Hmax. rewrite (fetch_html_retries _ _ _ _ _ _ Hall Hlen).
    rewrite (Market.fetch_html_equation_1 cfg url). simpl.
    rewrite trace_snoc2, <- app_assoc.
    destruct r as [resp'| |]; simpl in Hr; [| |done].
    + apply andb_true_iff in Hr as [H200 H429].
      apply negb_true_iff in H200. rewrite H200, H429.
      by destruct (lt_dec _ _); [lia|].
    + by destruct (lt_dec _ _); [lia|].
Qed.

Lemma fetch_html_retries_then_answers_witness :
  Market.fetch_html Market.CONFIG "u"%string 0
    {| net := [too_many RaAbsent; TimedOut; too_many (RaInt 1)]
              ++ Resp (mkResponse 200 RaAbsent (Some "<html>"%string)) :: [];
       trace := [] |}
  = (Some "<html>"%string,
     {| net := [];
        trace := [] ++ retried_calls Market.CONFIG "u"%string 0
                         [too_many RaAbsent; TimedOut; too_many (RaInt 1)]
                 ++ [EvRandomSleep (Market.base_delay Market.CONFIG).1
                                   (Market.base_delay Market.CONFIG).2;
                     EvGet (Market.page "u"%string)] |}).
Proof.
  apply (fetch_html_retries_then_answers Market.CONFIG "u"%string 0
           [too_many RaAbsent; TimedOut; too_many (RaInt 1)]
           (mkResponse 200 RaAbsent (Some "<html>"%string)) [] []).
  - repeat constructor.
  - simpl. lia.
  - reflexivity.
Defined.

(** X5. [fetch_html] gives up at once on anything but a 200, a 429 or a
    timeout: a response with any other status (a 500 as much as a 403), and
    a request that fails with another exception than a timeout, end the
    fetch with [None] after this one request, whatever [retries] is. *)
Theorem fetch_html_gives_up_on_other_failures :
  ∀ cfg url retries rest t,
    (∀ resp, status resp ≠ 200 → status resp ≠ 429 →
       Market.fetch_html cfg url retries {| net := Resp resp :: rest; trace := t |}
       = (None,
          {| net := rest;
             trace := t ++ [EvRandomSleep (Market.base_delay cfg).1
                                          (Market.base_delay cfg).2;
                            EvGet (Market.page url)] |}))
    ∧ Market.fetch_html cfg url retries {| net := Failed :: rest; trace := t |}
      = (None,
         {| net := rest;
            trace := t ++ [EvRandomSleep (Market.base_delay cfg).1
                                         (Market.base_delay cfg).2;
                           EvGet (Market.page url)] |}).
Proof.
  intros cfg url retries rest t. split.
  - intros resp H200 H429. rewrite (Market.fetch_html_equation_1 cfg url). simpl.
    rewrite trace_snoc2.
    destruct (status resp =? 200) eqn:H; [apply Z.eqb_eq in H; done|].
    destruct (status resp =? 429) eqn:H'; [apply Z.eqb_eq in H'; done|].
    by destruct (status resp =? 403).
  - rewrite (Market.fetch_html_equation_1 cfg url). simpl. by rewrite trace_snoc2.
Qed.

Lemma fetch_html_gives_up_on_other_failures_witness :
  Market.fetch_html Market.CONFIG "u"%string 0
    {| net := [Resp (mkResponse 500 RaAbsent None);
               Resp (mkResponse 200 RaAbsent (Some "<html>"%string))];
       trace := [] |}
  = (None,
     {| net := [Resp (mkResponse 200 RaAbsent (Some "<html>"%string))];
        trace := [] ++ [EvRandomSleep (Market.base_delay Market.CONFIG).1
                                      (Market.base_delay Market.CONFIG).2;
                        EvGet (Market.page "u"%string)] |}).
Proof.
  destruct (fetch_html_gives_up_on_other_failures Market.CONFIG "u"%string 0
              [Resp (mkResponse 200 RaAbsent (Some "<html>"%string))] []) as [H _].
  apply (H (mkResponse 500 RaAbsent None)); simpl; lia.
Defined.

(** What [fetch_html] adds to the trace, counted. *)
Lemma fetch_html_requests cfg url retries w :
  ∃ added,
    trace (Market.fetch_html cfg url retries w).2 = trace w ++ added
    ∧ (1 ≤ requests added ≤ S (Market.max_retries cfg - retries))%nat.
Proof.
  remember (Market.max_retries cfg - retries)%nat as k eqn:Hk.
  revert retries w Hk.
  induction k as [k IH] using lt_wf_ind. intros retries w Hk.
  rewrite (Market.fetch_html_equation_1 cfg url retries).
  set (lo := (Market.base_delay cfg).1). set (hi := (Market.base_delay cfg).2).
  assert (Hstop :
    ∃ added : list (Event Market.Results),
      (trace w ++ [EvRandomSleep lo hi]) ++ [EvGet (Market.page url)]
      = trace w ++ added ∧ (1 ≤ requests added ≤ S k)%nat).
  { exists [EvRandomSleep lo hi; EvGet (Market.page url)].
    rewrite trace_snoc2. split; [done|]. unfold requests. simpl. lia. }
  assert (Hagain : ∀ w1 mid,
    (retries < Market.max_retries cfg)%nat →
    trace w1 = trace w ++ [EvRandomSleep lo hi; EvGet (Market.page url)] ++ mid →
    requests mid = 0%nat →
    ∃ added,
      trace (Market.fetch_html cfg url (retries + 1) w1).2 = trace w ++ added
      ∧ (1 ≤ requests added ≤ S k)%nat).
  { intros w1 mid Hlt Hw1 Hmid.
    destruct (IH (Market.max_retries cfg - (retries + 1))%nat ltac:(lia)
                 (retries + 1)%nat w1 eq_refl) as (added & -> & Hadd).
    exists ([EvRandomSleep lo hi; EvGet (Market.page url)] ++ mid ++ added).
    rewrite Hw1, <- !app_assoc. split; [done|].
    unfold requests in *. rewrite !filter_app, !length_app, Hmid. simpl. lia. }
  unfold session_get, Market.random_delay, random_sleep, emit. simpl.
  fold lo hi.
  destruct (net w) as [|r rest]; simpl; [apply Hstop|].
  destruct r as [resp| |]; simpl; [| |apply Hstop].
  - destruct (status resp =? 200); [apply Hstop|].
    destruct (status resp =? 429).
    + destruct (lt_dec retries (Market.max_retries cfg)); [|apply Hstop].
      apply (Hagain _ [EvSleep ((Z.of_nat retries + 1) * 10)]); try done.
      simpl. by rewrite trace_snoc3.
    + destruct (status resp =? 403); apply Hstop.
  - destruct (lt_dec retries (Market.max_retries cfg)); [|apply Hstop].
    apply (Hagain _ []); try done.
    simpl. by rewrite trace_snoc2.
Qed.

(** X6. One call of [fetch_html] from [retries = 0] makes at least one and
    at most [max_retries + 1] requests, four with [CONFIG], whatever the
    server answers. *)
Theorem fetch_html_makes_at_most_four_requests :
  ∀ cfg url w,
    ∃ added,
      trace (Market.fetch_html cfg url 0 w).2 = trace w ++ added
      ∧ (1 ≤ requests added ≤ Market.max_retries cfg + 1)%nat.
Proof.
  intros cfg url w.
  destruct (fetch_html_requests cfg url 0 w) as (added & Ht & Hn).
  exists added. split; [done|]. lia.
Qed.

(** ** The drivers: requests, sleeps and checkpoint writes *)

Section MoreDriverFacts.
Import Reddit.
Set Default Proof Using "Type".
Local Set Warnings "-clear-no-such-hyp".

Variable fromtimestamp : Z → datetime.

Lemma spaced_weaken {D} rested (evs : list (Event D)) :
  spaced false evs = true → spaced rested evs = true.
Proof.
  destruct evs as [|e rest]; [done|]. simpl. destruct (is_get e); [done|].
  by destruct rested.
Qed.

(** A stretch of events that does not begin with a request may follow any
    other. *)
Lemma spaced_app {D} rested (x y : list (Event D)) :
  spaced rested x = true → spaced false y = true → spaced rested (x ++ y) = true.
Proof.
  revert rested. induction x as [|e x IH]; intros rested; cbn [spaced app].
  - intros _. apply spaced_weaken.
  - intros [He Hx]%andb_true_iff Hy. apply andb_true_iff. split; [done|].
    by apply IH.
Qed.

(** What [_fetch_json] adds to the trace: requests and fixed sleeps, a
    sleep between any two requests. *)
Lemma fetch_attempts_shape attempts url w :
  ∃ added,
    trace (fetch_attempts attempts url w).2 = trace w ++ added
    ∧ Forall (λ e : REvent, is_get e || match e with EvSleep _ => true | _ => false end = true)
        added
    ∧ spaced true added = true.
Proof.
  revert w. induction attempts as [|a later IH]; intros w; cbn [fetch_attempts].
  { exists []. by rewrite app_nil_r. }
  assert (Hlater : ∀ secs rest,
    ∃ added,
      trace (fetch_attempts later url
               (sleep secs {| net := rest; trace := trace w ++ [EvGet url] |})).2
      = trace w ++ added
      ∧ Forall (λ e : REvent,
                  is_get e || match e with EvSleep _ => true | _ => false end = true) added
      ∧ spaced true added = true).
  { intros secs rest.
    destruct (IH (sleep secs {| net := rest; trace := trace w ++ [EvGet url] |}))
      as (added & -> & Hall & Hsp).
    exists ([EvGet url; EvSleep secs] ++ added). split.
    - simpl. by rewrite <- !app_assoc.
    - split; [by repeat constructor|done]. }
  assert (Hstop : ∃ added : list REvent,
            trace w ++ [EvGet url] = trace w ++ added
            ∧ Forall (λ e : REvent,
                  is_get e || match e with EvSleep _ => true | _ => false end = true) added
            ∧ spaced true added = true).
  { exists [EvGet url]. split; [done|]. split; [by repeat constructor|done]. }
  unfold session_get, emit.
  destruct (net w) as [|r rest]; cbn [fst snd net trace]; [apply Hlater|].
  destruct r as [resp| |]; try apply Hlater.
  destruct (status resp =? 200).
  { destruct (body resp); [apply Hstop | apply Hlater]. }
  destruct (status resp =? 429).
  { destruct (int_retry_after _); apply Hlater. }
  destruct (status resp =? 403); [apply Hstop | apply Hlater].
Qed.

Lemma collected_once_grows P seen0 m added m' :
  collected_once seen0 m → grows P m added m' → collected_once seen0 m'.
Proof.
  intros (Hnd & Hnew & Hs) (Hp & Hs' & Hnd' & Hnew' & _).
  unfold collected_once, ids in *. rewrite Hp, fmap_app.
  split.
  { apply NoDup_app. split; [done|]. split; [|done].
    intros k Hk Hk'. apply (Hnew' k Hk'). rewrite Hs. set_solver. }
  split.
  { intros k [Hk|Hk]%elem_of_app; [by apply Hnew|].
    intros Hin. apply (Hnew' k Hk). rewrite Hs. set_solver. }
  rewrite Hs', Hs, list_to_set_app_L. set_solver.
Qed.

Lemma collected_once_size seen0 m :
  collected_once seen0 m →
  seen0 ⊆ seen_ids m ∧ size (seen_ids m) = (length (posts m) + size seen0)%nat.
Proof.
  intros (Hnd & Hnew & Hs). rewrite Hs. split; [set_solver|].
  rewrite size_union by set_solver.
  rewrite size_list_to_set by done. unfold ids. by rewrite length_fmap.
Qed.

Lemma save_checkpoint_event c seen0 m w :
  collected_once seen0 m →
  ∃ e, trace (_save_checkpoint c m w) = trace w ++ [e]
       ∧ run_event c seen0 e ∧ is_get e = false ∧ is_pause e = false.
Proof.
  intros Hm. destruct (collected_once_size _ _ Hm) as [Hsub Hsize].
  eexists. split; [reflexivity|]. split; [|done].
  simpl. split; [done|]. eauto.
Qed.

Lemma fetch_json_run c seen0 url w :
  ∃ added,
    trace (_fetch_json url w).2 = trace w ++ added
    ∧ Forall (run_event c seen0) added ∧ spaced true added = true
    ∧ Forall (λ e, is_write e = false) added.
Proof.
  destruct (fetch_attempts_shape (seq 0 max_retries) url w) as (added & Ht & Hall & Hsp).
  exists added. split; [done|]. split; [|split; [done|]].
  - eapply Forall_impl; [exact Hall|]. by intros [].
  - eapply Forall_impl; [exact Hall|]. by intros [].
Qed.

(** One loop of the pagination driver, started on a consistent [self]. *)
Lemma paginate_run c seen0 base tf after count total m w :
  collected_once seen0 m →
  ∃ evs,
    trace (world_of (paginate fromtimestamp c base tf after count total m w))
    = trace w ++ evs
    ∧ Forall (run_event c seen0) evs
    ∧ spaced true evs = true
    ∧ collected_once seen0
        (mem_of (paginate fromtimestamp c base tf after count total m w))
    ∧ ((count + length (posts (mem_of (paginate fromtimestamp c base tf after count
                                           total m w)))
        < 100 + length (posts m))%nat →
       Forall (λ e, is_write e = false) evs).
Proof.
  funelim (paginate fromtimestamp c base tf after count total m w);
    rewrite <- ?Heqcall; intros Hm;
    match goal with
    | Hf : _fetch_json ?u ?w0 = (_, ?w1) |- _ =>
        destruct (fetch_json_run c seen0 u w0) as (added & Hadded & Hrun & Hsp & Hq);
        rewrite Hf in Hadded; cbn [snd] in Hadded
    end;
    try (cbn [world_of mem_of]; exists added; by repeat (split; [done|])).
  - apply page_children_grows in Heq as (added1 & Hg1 & Hcount).
    destruct (Hcount _ _ eq_refl) as [-> _].
    pose proof (collected_once_grows _ _ _ _ _ Hm Hg1) as Hm'.
    pose proof (grows_length _ _ _ _ Hg1) as Hlen1.
    destruct (truthy after'); cbn [world_of mem_of];
      [|exists added; by repeat (split; [done|])].
    destruct (H _ Hm') as (evs & Ht & Hevs & Hsp' & Hm'' & Hq').
    destruct (paginate_grows fromtimestamp c base time_filter after'
                (count + length added1) total' m'
                (_delay c
                   (if (0 <? count + length added1)%nat
                       && ((count + length added1) `mod` 100 =? 0)%nat
                    then _save_checkpoint c m' w1 else w1))) as (added2 & Hg2 & _).
    pose proof (grows_length _ _ _ _ Hg2) as Hlen2.
    destruct ((0 <? count + length added1)%nat
              && ((count + length added1) `mod` 100 =? 0)%nat) eqn:Hsave.
    + destruct (save_checkpoint_event c seen0 m' w1 Hm') as (e & He & Hre & Hg & Hp).
      exists (added ++ [e; EvRandomSleep (delay_min c) (delay_max c)] ++ evs).
      split.
      { rewrite Ht. unfold _delay, random_sleep, emit. cbn [trace].
        by rewrite He, Hadded, <- !app_assoc. }
      split; [|split; [|split; [done|]]].
      * apply Forall_app. split; [done|]. by repeat constructor.
      * apply spaced_app; [done|]. simpl. by rewrite Hg.
      * intros Hsmall. exfalso.
        apply andb_true_iff in Hsave as [Hpos Hmod].
        apply Nat.ltb_lt in Hpos. apply Nat.eqb_eq in Hmod.
        pose proof (Nat.div_mod_eq (count + length added1) 100).
        destruct ((count + length added1) `div` 100)%nat eqn:Hdiv; lia.
    + exists (added ++ [EvRandomSleep (delay_min c) (delay_max c)] ++ evs).
      split.
      { rewrite Ht. unfold _delay, random_sleep, emit. cbn [trace].
        by rewrite Hadded, <- !app_assoc. }
      split; [|split; [|split; [done|]]].
      * apply Forall_app. split; [done|]. by repeat constructor.
      * by apply spaced_app.
      * intros Hsmall. apply Forall_app. split; [done|].
        constructor; [done|]. apply Hq'. lia.
  - apply page_children_grows in Heq as (added1 & Hg1 & _).
    pose proof (collected_once_grows _ _ _ _ _ Hm Hg1) as Hm'.
    cbn [world_of mem_of]. exists added. by repeat (split; [done|]).
Qed.

Lemma driver_run_refl {A} c seen0 m w (a : A) :
  collected_once seen0 m → driver_run c seen0 m w (Returned a m w).
Proof.
  intros Hm. exists []. cbn [world_of mem_of]. rewrite app_nil_r. by eauto.
Qed.

Lemma driver_run_trans {A B} c seen0 m w (r1 : Outcome A) (r2 : Outcome B) :
  driver_run c seen0 m w r1 →
  driver_run c seen0 (mem_of r1) (world_of r1) r2 →
  driver_run c seen0 m w r2.
Proof.
  intros (evs1 & Ht1 & Hr1 & Hm1 & Hle1 & Hq1) (evs2 & Ht2 & Hr2 & Hm2 & Hle2 & Hq2).
  exists (evs1 ++ evs2). rewrite Ht2, Ht1, <- app_assoc.
  split; [done|]. split; [by apply Forall_app|]. split; [done|]. split; [lia|].
  intros Hsmall. apply Forall_app. split; [apply Hq1 | apply Hq2]; lia.
Qed.

Lemma paginate_driver_run c seen0 base tf after total m w :
  collected_once seen0 m →
  driver_run c seen0 m w (paginate fromtimestamp c base tf after 0 total m w).
Proof.
  intros Hm.
  destruct (paginate_run c seen0 base tf after 0 total m w Hm)
    as (evs & Ht & Hr & _ & Hm' & Hq).
  destruct (paginate_grows fromtimestamp c base tf after 0 total m w) as (added & Hg & _).
  pose proof (grows_length _ _ _ _ Hg).
  exists evs. split; [done|]. split; [done|]. split; [done|]. split; [lia|].
  intros Hsmall. apply Hq. lia.
Qed.

Lemma for_time_filters_run c seen0 base filters total m w :
  collected_once seen0 m →
  driver_run c seen0 m w (for_time_filters fromtimestamp c base filters total m w).
Proof.
  revert total m w. induction filters as [|tf later IH]; intros total m w Hm;
    cbn [for_time_filters].
  { by apply driver_run_refl. }
  pose proof (paginate_driver_run c seen0 base tf None total m w Hm) as Hrun.
  destruct (paginate fromtimestamp c base tf None 0 total m w) as [total' m' w'|m' w'];
    [|done].
  eapply driver_run_trans; [exact Hrun|]. cbn [mem_of world_of].
  apply IH. by destruct Hrun as (_ & _ & _ & ? & _).
Qed.

Lemma for_sorts_run c seen0 sorts m w :
  collected_once seen0 m →
  driver_run c seen0 m w (for_sorts fromtimestamp c sorts m w).
Proof.
  revert m w. induction sorts as [|sort later IH]; intros m w Hm; cbn [for_sorts].
  { by apply driver_run_refl. }
  pose proof (for_time_filters_run c seen0 (listing_url (subreddit c) sort)
                (time_filters sort) 0 m w Hm) as Hrun.
  unfold scrape_old_reddit_pagination.
  destruct (for_time_filters _ _ _ _ _ _ _) as [total' m' w'|m' w']; [|done].
  eapply driver_run_trans; [exact Hrun|]. cbn [mem_of world_of].
  apply IH. by destruct Hrun as (_ & _ & _ & ? & _).
Qed.


(** X7. The checkpoints of a run are consistent with the one it started
    from.  Whatever the server answers, a run of [scrape] that started
    with the identifiers [seen0] of the loaded checkpoint writes the
    checkpoint file only, and every document it writes there holds all of
    [seen0] and, beyond it, exactly as many identifiers as its
    [posts_count]; the random delays are all drawn from
    [delay_min .. delay_max].  A run that returns ends with the write of
    the final checkpoint, which holds [seen_ids] and [len(posts)] as they
    are at the end, the number [scrape] returns. *)
Theorem scrape_checkpoints_are_consistent :
  ∀ (c : Config) (seen0 : gset Key) (w : RWorld),
    let r := scrape fromtimestamp c {| posts := []; seen_ids := seen0 |} w in
    ∃ evs,
      trace (world_of r) = trace w ++ evs
      ∧ (∀ path doc, EvWrite path doc ∈ evs →
           path = checkpoint_file c
           ∧ ∃ seen n, doc = DocCheckpoint seen n
                       ∧ seen0 ⊆ seen ∧ size seen = (n + size seen0)%nat)
      ∧ (∀ lo hi, EvRandomSleep lo hi ∈ evs → lo = delay_min c ∧ hi = delay_max c)
      ∧ (∀ n, value_of r = Some n →
           n = length (posts (mem_of r))
           ∧ ∃ before,
               evs = before ++ [EvWrite (checkpoint_file c)
                                  (DocCheckpoint (seen_ids (mem_of r)) n)]).
Proof.
  intros c seen0 w r. subst r. unfold scrape.
  assert (Hm0 : collected_once seen0 {| posts := []; seen_ids := seen0 |}).
  { split; [constructor|]. split; [set_solver|]. simpl. set_solver. }
  destruct (for_sorts_run c seen0 ["new"; "hot"; "top"; "rising"; "controversial"]%string
              _ w Hm0) as (evs & Ht & Hr & Hm & _).
  assert (Hread : ∀ evs' : list REvent,
    Forall (run_event c seen0) evs' →
    (∀ path doc, EvWrite path doc ∈ evs' →
       path = checkpoint_file c
       ∧ ∃ seen n, doc = DocCheckpoint seen n
                   ∧ seen0 ⊆ seen ∧ size seen = (n + size seen0)%nat)
    ∧ (∀ lo hi, EvRandomSleep lo hi ∈ evs' → lo = delay_min c ∧ hi = delay_max c)).
  { intros evs' Hall. rewrite Forall_forall in Hall.
    split; [intros path doc Hin | intros lo hi Hin]; apply (Hall _ Hin). }
  destruct (for_sorts _ _ _ _ _) as [[] m1 w1|m1 w1]; cbn [world_of mem_of value_of] in *.
  - destruct (save_checkpoint_event c seen0 m1 w1 Hm) as (e & He & Hre & _).
    exists (evs ++ [EvWrite (checkpoint_file c)
                      (DocCheckpoint (seen_ids m1) (length (posts m1)))]).
    split.
    { unfold _save_checkpoint, write_file, emit. cbn [trace].
      by rewrite Ht, <- app_assoc. }
    destruct (Hread (evs ++ [EvWrite (checkpoint_file c)
                               (DocCheckpoint (seen_ids m1) (length (posts m1)))]))
      as [Hw Hs].
    { apply Forall_app. split; [done|]. constructor; [|done].
      destruct (collected_once_size _ _ Hm). simpl. split; [done|]. eauto. }
    split; [done|]. split; [done|].
    intros n [= <-]. split; [done|]. by exists evs.
  - exists evs. destruct (Hread evs Hr) as [Hw Hs]. done.
Qed.

Lemma collected_once_fresh seen0 :
  collected_once seen0 {| posts := []; seen_ids := seen0 |}.
Proof. split; [constructor|]. split; [set_solver|]. simpl. set_solver. Qed.

(** X8. A run that accepts fewer than a hundred posts checkpoints only at
    its end.  The pagination loop saves a checkpoint only when its own
    count of accepted posts is a positive multiple of 100 at the end of a
    page, so a run of [scrape] that ends with fewer than 100 posts has
    written nothing before the final checkpoint, and nothing at all if an
    exception ended it. *)
Theorem small_runs_checkpoint_only_at_the_end :
  ∀ (c : Config) (seen0 : gset Key) (w : RWorld),
    let r := scrape fromtimestamp c {| posts := []; seen_ids := seen0 |} w in
    (length (posts (mem_of r)) < 100)%nat →
    ∃ evs,
      trace (world_of r) = trace w ++ evs
      ∧ filter (λ e, is_write e = true) evs
        = match value_of r with
          | Some n => [EvWrite (checkpoint_file c) (DocCheckpoint (seen_ids (mem_of r)) n)]
          | None => []
          end.
Proof.
  intros c seen0 w r. subst r. unfold scrape.
  destruct (for_sorts_run c seen0 ["new"; "hot"; "top"; "rising"; "controversial"]%string
              _ w (collected_once_fresh seen0)) as (evs & Ht & _ & _ & _ & Hq).
  assert (Hnone : ∀ evs' : list REvent,
            Forall (λ e, is_write e = false) evs' →
            filter (λ e, is_write e = true) evs' = []).
  { intros evs' Hall. induction Hall as [|e evs' He _ IH]; [done|].
    rewrite filter_cons. destruct (decide _) as [Heq|_]; [congruence|done]. }
  destruct (for_sorts _ _ _ _ _) as [[] m1 w1|m1 w1];
    cbn [world_of mem_of value_of posts] in *; intros Hsmall.
  - exists (evs ++ [EvWrite (checkpoint_file c)
                      (DocCheckpoint (seen_ids m1) (length (posts m1)))]).
    split.
    { unfold _save_checkpoint, write_file, emit. cbn [trace].
      by rewrite Ht, <- app_assoc. }
    rewrite filter_app, Hnone by (apply Hq; simpl; lia). done.
  - exists evs. split; [done|]. apply Hnone, Hq. simpl. lia.
Qed.



(** The events of a loop that never writes: a sleep before every request
    but the first, random delays over [delay_min .. delay_max]. *)
Lemma paginate_spaced c base tf after count total m w :
  ∃ evs,
    trace (world_of (paginate fromtimestamp c base tf after count total m w))
    = trace w ++ evs
    ∧ spaced true evs = true.
Proof.
  funelim (paginate fromtimestamp c base tf after count total m w);
    rewrite <- ?Heqcall;
    match goal with
    | Hf : _fetch_json ?u ?w0 = (_, ?w1) |- _ =>
        destruct (fetch_json_run c ∅ u w0) as (added & Hadded & _ & Hsp & _);
        rewrite Hf in Hadded; cbn [snd] in Hadded
    end;
    try (cbn [world_of]; by eauto).
  destruct (truthy after'); cbn [world_of]; [|by eauto].
  destruct H as (evs & Ht & Hsp').
  destruct ((0 <? count')%nat && (count' `mod` 100 =? 0)%nat).
  - exists (added ++ [EvWrite (checkpoint_file c)
                        (DocCheckpoint (seen_ids m') (length (posts m')));
                      EvRandomSleep (delay_min c) (delay_max c)] ++ evs).
    split.
    { rewrite Ht. unfold _delay, random_sleep, _save_checkpoint, write_file, emit.
      cbn [trace]. by rewrite Hadded, <- !app_assoc. }
    by apply spaced_app.
  - exists (added ++ [EvRandomSleep (delay_min c) (delay_max c)] ++ evs).
    split.
    { rewrite Ht. unfold _delay, random_sleep, emit. cbn [trace].
      by rewrite Hadded, <- !app_assoc. }
    by apply spaced_app.
Qed.

Variable timestamp : datetime → option Z.

Lemma chunk_pages_run c start end_ start_ts end_ts after count m w :
  ∃ evs,
    trace (world_of (chunk_pages fromtimestamp c start end_ start_ts end_ts after count m w))
    = trace w ++ evs
    ∧ spaced true evs = true
    ∧ Forall (λ e, is_write e = false) evs.
Proof.
  funelim (chunk_pages fromtimestamp c start end_ start_ts end_ts after count m w);
    rewrite <- ?Heqcall;
    match goal with
    | Hf : _fetch_json ?u ?w0 = (_, ?w1) |- _ =>
        destruct (fetch_json_run c ∅ u w0) as (added & Hadded & _ & Hsp & Hq);
        rewrite Hf in Hadded; cbn [snd] in Hadded
    end;
    try (cbn [world_of]; by eauto).
  destruct (truthy after'); cbn [world_of]; [|by eauto].
  destruct H as (evs & Ht & Hsp' & Hq').
  exists (added ++ [EvRandomSleep (delay_min c) (delay_max c)] ++ evs).
  split.
  { rewrite Ht. unfold _delay, random_sleep, emit. cbn [trace].
    by rewrite Hadded, <- !app_assoc. }
  split; [by apply spaced_app|].
  apply Forall_app. split; [done|]. by constructor.
Qed.

Lemma scrape_chunk_run c start end_ m w :
  ∃ evs,
    trace (world_of (_scrape_chunk fromtimestamp timestamp c start end_ m w))
    = trace w ++ evs
    ∧ spaced true evs = true
    ∧ Forall (λ e, is_write e = false) evs.
Proof.
  unfold _scrape_chunk.
  destruct (timestamp start) as [start_ts|];
    [|by exists []; rewrite app_nil_r].
  destruct (timestamp end_) as [end_ts|];
    [|by exists []; rewrite app_nil_r].
  apply chunk_pages_run.
Qed.

Lemma for_windows_run c ws overflows total m w :
  ∃ evs,
    trace (world_of (for_windows fromtimestamp timestamp c ws overflows total m w))
    = trace w ++ evs
    ∧ spaced true evs = true
    ∧ Forall (λ e, is_write e = false) evs.
Proof.
  revert total m w. induction ws as [|[s e] rest IH]; intros total m w;
    cbn [for_windows].
  { exists []. rewrite app_nil_r. by destruct overflows. }
  destruct (scrape_chunk_run c s e m w) as (evs1 & Ht1 & Hsp1 & Hq1).
  destruct (_scrape_chunk _ _ _ _ _ _ _) as [count m' w'|m' w'];
    cbn [world_of] in *; [|by eauto].
  destruct (IH (total + count)%nat m' (_delay c w')) as (evs2 & Ht2 & Hsp2 & Hq2).
  exists (evs1 ++ [EvRandomSleep (delay_min c) (delay_max c)] ++ evs2).
  split.
  { rewrite Ht2. unfold _delay, random_sleep, emit. cbn [trace].
    by rewrite Ht1, <- !app_assoc. }
  split; [by apply spaced_app|].
  apply Forall_app. split; [done|]. by constructor.
Qed.

(** X10. Requests are spaced by sleeps inside a loop, and the chunked
    search saves nothing.  In a pagination loop of
    [scrape_old_reddit_pagination], and in the whole of
    [scrape_search_api_chunked], every request but the first comes right
    after a sleep: the fixed sleep that follows a failed attempt, or the
    random delay at the end of a page or of a window.  The chunked search
    writes no file at all: it never saves a checkpoint. *)
Theorem requests_are_spaced_by_sleeps :
  (∀ c base tf after count total m w,
      ∃ evs,
        trace (world_of (paginate fromtimestamp c base tf after count total m w))
        = trace w ++ evs
        ∧ spaced true evs = true)
  ∧ (∀ c m w,
      ∃ evs,
        trace (world_of (scrape_search_api_chunked fromtimestamp timestamp c m w))
        = trace w ++ evs
        ∧ spaced true evs = true
        ∧ Forall (λ e, is_write e = false) evs).
Proof.
  split; [apply paginate_spaced|].
  intros c m w. unfold scrape_search_api_chunked. rewrite chunk_loop_windows.
  apply for_windows_run.
Qed.

End MoreDriverFacts.

(** ** Runs that return, and the one exception that ends a run *)

Section Returns.
Import Reddit.
Set Default Proof Using "Type".

Variable fromtimestamp : Z → datetime.



Lemma visit_child_readable in_range m child :
  child_readable child = true →
  visit_child fromtimestamp in_range m child ≠ Crashed.
Proof.
  unfold visit_child.
  destruct child as [|cid [| |ts] ctitle|[| |ts] ctitle]; simpl; try done.
  intros _. destruct (decide _); [done|]. by destruct (in_range _).
Qed.

Lemma page_children_readable c children m count total :
  forallb child_readable children = true →
  ∃ counts m', page_children fromtimestamp c children m count total = (Some counts, m').
Proof.
  revert m count total. induction children as [|child rest IH]; intros m count total;
    cbn [page_children forallb]; [by eauto|].
  intros [Hc Hrest]%andb_true_iff.
  pose proof (visit_child_readable (in_date_range c) m child Hc).
  destruct (visit_child _ _ _ _); [by apply IH|by apply IH|done].
Qed.





(** The one exception of the loop over the children: a child with no
    ['created_utc'] key whose identifier is new, after children that
    were gone through. *)
Lemma page_children_missing_key c before cid ctitle rest m count total counts m' :
  page_children fromtimestamp c before m count total = (Some counts, m') →
  cid ∉ seen_ids m' →
  page_children fromtimestamp c (before ++ Thing cid TsMissing ctitle :: rest)
    m count total
  = (None, m').
Proof.
  revert m count total. induction before as [|child before IH]; intros m count total;
    cbn [page_children app].
  - intros [= _ ->] Hnew. unfold visit_child. simpl.
    by destruct (decide _).
  - destruct (visit_child _ _ _ _); [by apply IH|by apply IH|done].
Qed.

(** X11. A child without a ['created_utc'] key ends the run, and what the
    run had collected is lost.  When the first listing of a run holds,
    after children that are gone through, a child whose data has no
    ['created_utc'] key and whose identifier is new, [main] ends with the
    exception [datetime.fromtimestamp] raises: the posts accepted before
    it are in [self.posts], but the run has made this one request and has
    written nothing, neither a checkpoint nor the output. *)
Theorem missing_timestamp_key_ends_the_run :
  ∀ (a : Args) (stamp : string) (f : CheckpointFile) (data : json) (seen0 : gset Key)
    (before : list Child) (cid : Key) (ctitle : string) (rest : list Child)
    (after : option string) (more : list (Reply Payload)) (t : list REvent)
    (counts : nat * nat) (m' : Mem),
    let c := config_of_args a stamp in
    init c f = Ok (data, {| posts := []; seen_ids := seen0 |}) →
    page_children fromtimestamp c before {| posts := []; seen_ids := seen0 |} 0 0
    = (Some counts, m') →
    cid ∉ seen_ids m' →
    main fromtimestamp a stamp f
      {| net := listing_ok (before ++ Thing cid TsMissing ctitle :: rest) after :: more;
         trace := t |}
    = Raised m'
        {| net := more;
           trace := t ++ [EvGet (page_url (listing_url (arg_subreddit a) "new"%string)
                                   None None)] |}.
Proof.
  intros a stamp f data seen0 before cid ctitle rest after more t counts m' c
    Hinit Hbefore Hnew.
  unfold main. fold c. rewrite Hinit.
  unfold scrape. cbn [for_sorts]. unfold scrape_old_reddit_pagination.
  cbn [time_filters String.eqb Ascii.eqb Bool.eqb orb for_time_filters].
  rewrite paginate_page.
  change (_fetch_json ?u {| net := listing_ok ?ch ?af :: ?mo; trace := ?tr |})
    with (Some (Listing ch af), {| net := mo; trace := tr ++ [EvGet u] |}).
  pose proof (page_children_missing_key c before cid ctitle rest _ _ _ _ _
                Hbefore Hnew) as Hp.
  destruct before as [|child before]; cbn [app] in Hp |- *; by rewrite Hp.
Qed.

(** One page that hands a cursor on, and the last page. *)
Lemma paginate_next_page c base tf after count total m children next rest t :
  children ≠ [] →
  forallb child_readable children = true →
  truthy next = true →
  ∃ count' total' m' mid,
    paginate fromtimestamp c base tf after count total m
      {| net := listing_ok children next :: rest; trace := t |}
    = paginate fromtimestamp c base tf next count' total' m'
        {| net := rest; trace := t ++ EvGet (page_url base after tf) :: mid |}
    ∧ filter (λ e : REvent, is_get e = true) mid = [].
Proof.
  intros Hne Hkeyed Hnext. rewrite paginate_page.
  change (_fetch_json ?u {| net := listing_ok ?ch ?af :: ?mo; trace := ?tr |})
    with (Some (Listing ch af), {| net := mo; trace := tr ++ [EvGet u] |}).
  destruct (page_children_readable c children m count total Hkeyed)
    as ([count' total'] & m' & Hp).
  destruct children as [|child children]; [done|]. rewrite Hp, Hnext.
  exists count', total', m'.
  destruct ((0 <? count')%nat && (count' `mod` 100 =? 0)%nat).
  - exists [EvWrite (checkpoint_file c) (DocCheckpoint (seen_ids m') (length (posts m')));
            EvRandomSleep (delay_min c) (delay_max c)].
    split; [|done].
    unfold _delay, random_sleep, _save_checkpoint, write_file, emit. cbn [net trace].
    by rewrite <- !app_assoc.
  - exists [EvRandomSleep (delay_min c) (delay_max c)].
    split; [|done].
    unfold _delay, random_sleep, emit. cbn [net trace].
    by rewrite <- !app_assoc.
Qed.

Lemma paginate_last_page c base tf after count total m children next rest t :
  children ≠ [] →
  forallb child_readable children = true →
  truthy next = false →
  ∃ total' m',
    paginate fromtimestamp c base tf after count total m
      {| net := listing_ok children next :: rest; trace := t |}
    = Returned total' m'
        {| net := rest; trace := t ++ [EvGet (page_url base after tf)] |}.
Proof.
  intros Hne Hkeyed Hnext. rewrite paginate_page.
  change (_fetch_json ?u {| net := listing_ok ?ch ?af :: ?mo; trace := ?tr |})
    with (Some (Listing ch af), {| net := mo; trace := tr ++ [EvGet u] |}).
  destruct (page_children_readable c children m count total Hkeyed)
    as ([count' total'] & m' & Hp).
  destruct children as [|child children]; [done|]. rewrite Hp, Hnext.
  by eauto.
Qed.

(** X12. The pagination loop follows the cursors.  When the server
    answers page after page, each page with children and a cursor, and
    then a page with children and no cursor, and every child of these
    pages is one the loop can go through (it is no thing, or
    [datetime.fromtimestamp] refuses its ['created_utc'], or it has a
    ['created_utc'] key and an ['id'] a set can hold), the loop asks for
    the first page with the cursor it was started with and for each later
    page with the cursor the page before handed on, in this order and each
    once; it returns after the page without a cursor, and leaves the
    replies after it untouched. *)
Theorem pagination_follows_the_cursors :
  ∀ (c : Config) (base : string) (tf : option string)
    (pages : list (list Child * option string)) (after : option string)
    (count total : nat) (m : Mem)
    (last_children : list Child) (last_after : option string)
    (rest : list (Reply Payload)) (t : list REvent),
    Forall (λ p, p.1 ≠ [] ∧ forallb child_readable p.1 = true ∧ truthy p.2 = true)
      pages →
    last_children ≠ [] →
    forallb child_readable last_children = true →
    truthy last_after = false →
    ∃ n m' evs,
      paginate fromtimestamp c base tf after count total m
        {| net := ((λ p, listing_ok p.1 p.2) <$> pages)
                  ++ listing_ok last_children last_after :: rest;
           trace := t |}
      = Returned n m' {| net := rest; trace := t ++ evs |}
      ∧ filter (λ e, is_get e = true) evs
        = (λ cursor, EvGet (page_url base cursor tf)) <$> (after :: pages.*2).
Proof.
  intros c base tf pages after count total m last_children last_after rest t
    Hpages Hne Hkeyed Hlast.
  revert after count total m t.
  induction Hpages as [|[children next] pages (Hne1 & Hkeyed1 & Hnext) _ IH];
    intros after count total m t.
  - destruct (paginate_last_page c base tf after count total m last_children
                last_after rest t Hne Hkeyed Hlast) as (n & m' & Hrun).
    exists n, m', [EvGet (page_url base after tf)].
    cbn [fmap list_fmap app]. by rewrite Hrun.
  - simpl in Hne1, Hkeyed1, Hnext. cbn [fmap list_fmap app fst snd].
    destruct (paginate_next_page c base tf after count total m children next
                (((λ p, listing_ok p.1 p.2) <$> pages)
                 ++ listing_ok last_children last_after :: rest) t
                Hne1 Hkeyed1 Hnext) as (count' & total' & m1 & mid & Hrun & Hmid).
    destruct (IH next count' total' m1 (t ++ EvGet (page_url base after tf) :: mid))
      as (n & m' & evs & Hrun' & Hevs).
    exists n, m', (EvGet (page_url base after tf) :: mid ++ evs).
    split.
    + etrans; [exact Hrun|]. etrans; [exact Hrun'|].
      by rewrite <- app_assoc.
    + rewrite filter_cons_True by done. rewrite filter_app, Hmid. simpl.
      by rewrite Hevs.
Qed.

Variable timestamp : datetime → option Z.




End Returns.

(** ** The cost of the chunked search *)

Lemma ceil_div_step (n width : Z) :
  0 < width → width ≤ n →
  Z.to_nat ((n + width - 1) / width) = S (Z.to_nat ((n - width + width - 1) / width)).
Proof.
  intros Hw Hn.
  replace (n + width - 1) with ((n - width + width - 1) + 1 * width) by lia.
  rewrite Z.div_add by lia.
  assert (0 ≤ (n - width + width - 1) / width) by (apply Z.div_pos; lia).
  lia.
Qed.

Lemma ceil_div_last (n width : Z) :
  0 < n → n < width → Z.to_nat ((n + width - 1) / width) = 1%nat.
Proof.
  intros Hn Hw.
  replace (n + width - 1) with ((n - 1) + 1 * width) by lia.
  rewrite Z.div_add by lia. rewrite Z.div_small by lia. done.
Qed.

Lemma ceil_div_none (n width : Z) :
  0 < width → n ≤ 0 → Z.to_nat ((n + width - 1) / width) = 0%nat.
Proof.
  intros Hw Hn.
  assert ((n + width - 1) / width < 1); [|lia].
  apply Z.div_lt_upper_bound; lia.
Qed.

Lemma chunk_windows_length chunk_days start end_ :
  datetime_min ≤ start →
  end_ + timedelta_days (Z.pos chunk_days) ≤ datetime_max →
  (Reddit.chunk_windows chunk_days start end_).2 = false
  ∧ length (Reddit.chunk_windows chunk_days start end_).1
    = Z.to_nat ((end_ - start + timedelta_days (Z.pos chunk_days) - 1)
                / timedelta_days (Z.pos chunk_days)).
Proof.
  funelim (Reddit.chunk_windows chunk_days start end_); rewrite <- ?Heqcall;
    intros Hmin Hmax; ltb_facts;
    pose proof (timedelta_days_pos chunk_days) as Hw;
    try match goal with
        | He : Reddit.chunk_end _ _ _ = None |- _ =>
            pose proof He as Hnone; rewrite chunk_end_fits in Hnone by lia; done
        end.
  - cbn [fst snd length]. split; [done|]. by rewrite ceil_div_none by lia.
  - pose proof (chunk_end_some _ _ _ _ Hend) as [Hce _].
    destruct H as [Hflag Hlen]; [lia..|].
    cbn [fst snd length]. split; [done|]. rewrite Hlen, Hce.
    destruct (Z.le_gt_cases (current_start + timedelta_days (Z.pos chunk_days)) end_)
      as [Hfull|Hshort].
    + rewrite Z.min_l by done.
      rewrite (ceil_div_step (end_ - current_start)) by lia.
      do 3 f_equal. lia.
    + rewrite Z.min_r by lia.
      rewrite (ceil_div_none (end_ - end_)) by lia.
      by rewrite ceil_div_last by lia.
Qed.

(** X14. The chunked search goes through as many windows as the range
    holds chunks of seven days, the last one counted when it is shorter.
    When [start_date] is a date of the calendar and [end_date] lies seven
    days or more before [datetime.max] (no window's end overflows),
    [scrape_search_api_chunked] is [_scrape_chunk] then [_delay] on each
    window of a list, in order, until the list is through or an exception
    of [_scrape_chunk] ends the run; and the list has as many windows as
    the length of the range divided by seven days, rounded up (none when
    the range is empty or reversed). *)
Theorem chunk_windows_count :
  ∀ (fromtimestamp : Z → datetime) (timestamp : datetime → option Z) (c : Reddit.Config),
    datetime_min ≤ Reddit.start_date c →
    Reddit.end_date c + timedelta_days 7 ≤ datetime_max →
    ∃ ws,
      (∀ m w,
          Reddit.scrape_search_api_chunked fromtimestamp timestamp c m w
          = for_windows fromtimestamp timestamp c ws false 0 m w)
      ∧ length ws
        = Z.to_nat ((Reddit.end_date c - Reddit.start_date c + timedelta_days 7 - 1)
                    / timedelta_days 7).
Proof.
  intros fromtimestamp timestamp c Hmin Hmax.
  destruct (chunk_windows_length 7 (Reddit.start_date c) (Reddit.end_date c) Hmin Hmax)
    as [Hflag Hlen].
  exists (Reddit.chunk_windows 7 (Reddit.start_date c) (Reddit.end_date c)).1.
  split; [|done].
  intros m w. unfold Reddit.scrape_search_api_chunked.
  by rewrite chunk_loop_windows, Hflag.
Qed.

Lemma chunk_windows_count_witness :
  ∃ ws,
    (∀ m w,
        Reddit.scrape_search_api_chunked utc utc_timestamp demo_config m w
        = for_windows utc utc_timestamp demo_config ws false 0 m w)
    ∧ length ws = 2%nat.
Proof.
  apply (chunk_windows_count utc utc_timestamp demo_config); vm_compute; done.
Defined.

(** ** Saving twice *)

Lemma sort_desc_of_sorted l :
  StronglySorted not_older l → Reddit.sort_desc l = l.
Proof.
  induction 1 as [|p rest Hsorted IH Hall]; [done|].
  cbn [Reddit.sort_desc]. rewrite IH.
  destruct rest as [|q rest']; [done|]. cbn [Reddit.insert_desc].
  apply Forall_cons in Hall as [Hq _]. unfold not_older in Hq.
  by destruct (Z.leb_spec (Reddit.sort_key q) (Reddit.sort_key p)); [|lia].
Qed.

Lemma sort_posts_again l sorted :
  Reddit.sort_posts l = Reddit.Ok sorted → Reddit.sort_posts sorted = Reddit.Ok sorted.
Proof.
  unfold Reddit.sort_posts.
  destruct ((2 <=? length l)%nat && existsb Reddit.no_timestamp l) eqn:Hcond; [done|].
  intros [= <-].
  pose proof (sort_desc_perm l) as Hperm.
  assert (Hsame : (2 <=? length (Reddit.sort_desc l))%nat
                  && existsb Reddit.no_timestamp (Reddit.sort_desc l) = false).
  { rewrite (Permutation_length Hperm).
    destruct (2 <=? length l)%nat; [|done]. simpl in *.
    destruct (existsb Reddit.no_timestamp (Reddit.sort_desc l)) eqn:Hex; [|done].
    apply existsb_exists in Hex as (p & Hin & Hp).
    rewrite <- Hcond. symmetry. apply existsb_exists. exists p. split; [|done].
    by apply (Permutation_in _ Hperm). }
  rewrite Hsame. f_equal. apply sort_desc_of_sorted, sort_desc_sorted.
Qed.

(** X15. Saving twice changes nothing.  A second [save_output] right
    after the first ends the same way, leaves [self.posts] in the order
    the first put them in (sorting a list that is sorted newest first
    moves nothing) and writes the same documents to the same file once
    more. *)
Theorem save_output_twice_writes_the_same :
  ∀ (c : Reddit.Config) (m : Reddit.Mem) (w : Reddit.RWorld),
    let first := Reddit.save_output c m w in
    let second := Reddit.save_output c (mem_of first) (world_of first) in
    ∃ out,
      trace (world_of first) = trace w ++ out
      ∧ trace (world_of second) = trace (world_of first) ++ out
      ∧ mem_of second = mem_of first
      ∧ value_of second = value_of first.
Proof.
  intros c m w first second. subst first second. unfold Reddit.save_output.
  destruct (Reddit.posts m) as [|p rest] eqn:Hposts.
  { exists []. cbn [mem_of world_of value_of]. rewrite Hposts.
    by rewrite app_nil_r. }
  destruct (Reddit.sort_posts (p :: rest)) as [sorted|] eqn:Hsort.
  2: { exists []. cbn [mem_of world_of value_of]. rewrite Hposts, Hsort.
       by rewrite app_nil_r. }
  pose proof (sort_posts_again _ _ Hsort) as Hagain.
  assert (Hne : ∃ q sorted', sorted = q :: sorted').
  { unfold Reddit.sort_posts in Hsort. destruct (_ && _); [done|].
    assert (Hs : Reddit.sort_desc (p :: rest) = sorted) by congruence.
    pose proof (sort_desc_perm (p :: rest)) as Hperm. rewrite Hs in Hperm.
    destruct sorted as [|q sorted']; [|by eauto].
    by apply Permutation_nil_l in Hperm. }
  destruct Hne as (q & sorted' & ->).
  destruct (Reddit.output_format c =? "json")%string eqn:Hjson.
  { exists [EvWrite (Reddit.output_file c) (Reddit.DocJson (q :: sorted'))].
    cbn [mem_of world_of value_of Reddit.posts Reddit.seen_ids].
    by rewrite Hagain. }
  destruct (Reddit.output_format c =? "csv")%string eqn:Hcsv.
  { exists [EvWrite (Reddit.output_file c) Reddit.DocTruncated;
            EvWrite (Reddit.output_file c) (Reddit.DocCsv (q :: sorted'))].
    cbn [mem_of world_of value_of Reddit.posts Reddit.seen_ids].
    rewrite Hagain.
    unfold write_file, emit. cbn [mem_of world_of value_of trace].
    by rewrite <- !app_assoc. }
  exists []. cbn [mem_of world_of value_of Reddit.posts Reddit.seen_ids].
  rewrite Hagain. by rewrite !app_nil_r.
Qed.

(** ** The market scraper as a whole *)

Section MarketFacts.
Import Market.
Set Default Proof Using "Type".
Local Set Warnings "-clear-no-such-hyp".

Lemma requests_app {D} (x y : list (Event D)) :
  requests (x ++ y) = (requests x + requests y)%nat.
Proof. unfold requests. by rewrite filter_app, length_app. Qed.

Lemma deals_of_labels mkt src cards :
  Forall (λ d, market d = mkt ∧ source d = src) (deals_of mkt src cards).
Proof.
  unfold deals_of. induction cards as [|card cards IH]; [constructor|].
  by constructor.
Qed.

(** The three counters cover a list whose deals are all of the three
    markets. *)
Lemma count_three_markets (ds : list Deal) :
  Forall (λ d, market d ∈ ["A101"; "BIM"; "SOK"]%string) ds →
  length ds = (count_market "A101" ds + count_market "BIM" ds
               + count_market "SOK" ds)%nat.
Proof.
  unfold count_market. induction 1 as [|d ds Hd _ IH]; [done|].
  rewrite !filter_cons. cbn [length]. rewrite IH.
  repeat destruct (decide _); simpl; try lia; try congruence.
  set_solver.
Qed.

Variable cards_aggregator : string → list (string * string).

Lemma aggregator_markets_run cfg mkts found w :
  ∃ new evs,
    (aggregator_markets cards_aggregator cfg mkts found w).1 = found ++ new
    ∧ Forall (λ d, market d ∈ upper <$> mkts ∧ source d = "aktuel-urunler.com"%string) new
    ∧ trace (aggregator_markets cards_aggregator cfg mkts found w).2 = trace w ++ evs
    ∧ (length mkts ≤ requests evs ≤ length mkts * (max_retries cfg + 1))%nat.
Proof.
  revert found w. induction mkts as [|mkt later IH]; intros found w;
    cbn [aggregator_markets].
  { exists [], []. rewrite !app_nil_r. split; [done|]. split; [constructor|].
    split; [done|]. unfold requests. simpl. lia. }
  set (url := (aggregator_url cfg +:+ "/" +:+ mkt +:+ "-aktuel-urunler/")%string).
  destruct (fetch_html_requests cfg url 0 w) as (evs1 & Ht1 & Hn1).
  destruct (fetch_html cfg url 0 w) as [html w1]. cbn [snd] in Ht1.
  assert (Hlater : ∀ here,
    Forall (λ d, market d = upper mkt ∧ source d = "aktuel-urunler.com"%string) here →
    ∃ new evs,
      (aggregator_markets cards_aggregator cfg later (found ++ here) w1).1 = found ++ new
      ∧ Forall (λ d, market d ∈ upper <$> mkt :: later
                     ∧ source d = "aktuel-urunler.com"%string) new
      ∧ trace (aggregator_markets cards_aggregator cfg later (found ++ here) w1).2
        = trace w ++ evs
      ∧ (length (mkt :: later) ≤ requests evs
         ≤ length (mkt :: later) * (max_retries cfg + 1))%nat).
  { intros here Hhere.
    destruct (IH (found ++ here) w1) as (new & evs2 & -> & Hnew & -> & Hn2).
    exists (here ++ new), (evs1 ++ evs2). rewrite Ht1, <- !app_assoc.
    split; [done|]. split; [|split; [done|]].
    - apply Forall_app. split.
      + eapply Forall_impl; [exact Hhere|]. intros d [-> Hsrc]. split; [|done].
        rewrite fmap_cons. set_solver.
      + eapply Forall_impl; [exact Hnew|]. intros d [Hin Hsrc]. split; [|done].
        rewrite fmap_cons. set_solver.
    - rewrite requests_app. simpl. lia. }
  destruct (no_html html).
  - destruct (Hlater [] ltac:(constructor)) as (new & evs & Hd & Hrest).
    rewrite app_nil_r in Hd, Hrest. by exists new, evs.
  - apply Hlater, deals_of_labels.
Qed.

Variable cards_sok cards_bim cards_a101 : string → list (string * string).

Lemma scrape_direct_run cfg url mkt src cards w :
  ∃ evs,
    Forall (λ d, market d = mkt ∧ source d = src)
      (scrape_direct cfg url mkt src cards w).1
    ∧ trace (scrape_direct cfg url mkt src cards w).2 = trace w ++ evs
    ∧ (1 ≤ requests evs ≤ max_retries cfg + 1)%nat.
Proof.
  unfold scrape_direct.
  destruct (fetch_html_requests cfg url 0 w) as (evs & Ht & Hn).
  destruct (fetch_html cfg url 0 w) as [html w1]. cbn [snd] in Ht.
  exists evs. destruct (no_html html); cbn [fst snd].
  - split; [constructor|]. split; [done|lia].
  - split; [apply deals_of_labels|]. split; [done|lia].
Qed.

(** What [scrape_all_markets] does, by the two strategies. *)
Lemma scrape_all_markets_run cfg w :
  ∃ evs,
    trace (scrape_all_markets cards_aggregator cards_sok cards_bim cards_a101 cfg w).2
    = trace w ++ evs
    ∧ ((Forall (λ d, market d ∈ upper <$> markets cfg
                     ∧ source d = "aktuel-urunler.com"%string)
          (deals (scrape_all_markets cards_aggregator cards_sok cards_bim cards_a101
                    cfg w).1)
        ∧ (length (markets cfg) ≤ requests evs
           ≤ length (markets cfg) * (max_retries cfg + 1))%nat)
       ∨ (Forall (λ d, (market d, source d)
                       ∈ [("SOK", "kurumsal.sokmarket.com.tr"); ("BIM", "bim.com.tr");
                          ("A101", "a101.com.tr")]%string)
            (deals (scrape_all_markets cards_aggregator cards_sok cards_bim cards_a101
                      cfg w).1)
          ∧ (length (markets cfg) + 3 ≤ requests evs
             ≤ (length (markets cfg) + 3) * (max_retries cfg + 1))%nat)).
Proof.
  unfold scrape_all_markets, scrape_aktuel_urunler.
  destruct (aggregator_markets_run cfg (markets cfg) [] w)
    as (new & evs0 & Hd & Hnew & Ht0 & Hn0).
  destruct (aggregator_markets cards_aggregator cfg (markets cfg) [] w)
    as [aggregator_deals w1]. cbn [fst snd] in *. subst aggregator_deals.
  destruct new as [|d new].
  - unfold scrape_sok_direct, scrape_bim_direct, scrape_a101_direct.
    destruct (scrape_direct_run cfg (direct_sok cfg) "SOK" "kurumsal.sokmarket.com.tr"
                cards_sok w1) as (evs1 & Hd1 & Ht1 & Hn1).
    destruct (scrape_direct cfg (direct_sok cfg) _ _ cards_sok w1) as [sok_deals wa].
    destruct (scrape_direct_run cfg (direct_bim cfg) "BIM" "bim.com.tr"
                cards_bim wa) as (evs2 & Hd2 & Ht2 & Hn2).
    destruct (scrape_direct cfg (direct_bim cfg) _ _ cards_bim wa) as [bim_deals wb].
    destruct (scrape_direct_run cfg (direct_a101 cfg) "A101" "a101.com.tr"
                cards_a101 wb) as (evs3 & Hd3 & Ht3 & Hn3).
    destruct (scrape_direct cfg (direct_a101 cfg) _ _ cards_a101 wb) as [a101_deals wc].
    cbn [fst snd deals app] in *.
    exists (evs0 ++ evs1 ++ evs2 ++ evs3).
    split; [by rewrite Ht3, Ht2, Ht1, Ht0, <- !app_assoc|].
    right. split.
    + repeat (apply Forall_app; split);
        (eapply Forall_impl; [eassumption|]); intros d [-> ->]; set_solver.
    + rewrite !requests_app. lia.
  - cbn [fst snd deals app]. exists evs0. split; [done|]. by left.
Qed.

(** X16. The counts by market add up.  When every market of the
    configuration is one of [a101], [bim] and [sok] (in any case of the
    letters), as in [CONFIG], every deal of the results is counted under
    exactly one of ['A101'], ['BIM'] and ['SOK']: [total_deals] is the
    number of deals and the sum of the three counts. *)
Theorem by_market_counts_add_up :
  ∀ (cfg : Config) (w : MWorld),
    Forall (λ mkt, upper mkt ∈ ["A101"; "BIM"; "SOK"]%string) (markets cfg) →
    let results :=
      (scrape_all_markets cards_aggregator cards_sok cards_bim cards_a101 cfg w).1 in
    total_deals results = length (deals results)
    ∧ total_deals results
      = ((by_market results).1.1 + (by_market results).1.2 + (by_market results).2)%nat.
Proof.
  intros cfg w Hmarkets results.
  destruct (scrape_all_markets_run cfg w) as (evs & _ & Hdeals).
  assert (Hthree : Forall (λ d, market d ∈ ["A101"; "BIM"; "SOK"]%string)
                     (deals results)).
  { destruct Hdeals as [[Hagg _]|[Hdirect _]].
    - eapply Forall_impl; [exact Hagg|]. intros d [Hin _].
      apply list_elem_of_fmap in Hin as (mkt & -> & Hmkt).
      rewrite Forall_forall in Hmarkets. by apply Hmarkets.
    - eapply Forall_impl; [exact Hdirect|]. intros d Hin.
      rewrite !elem_of_cons, elem_of_nil in Hin.
      destruct Hin as [Hin|[Hin|[Hin|[]]]]; injection Hin as -> _; set_solver. }
  apply count_three_markets in Hthree.
  subst results. unfold scrape_all_markets in *.
  destruct (scrape_aktuel_urunler _ _ _) as [aggregator_deals w1].
  destruct aggregator_deals as [|d ds].
  - destruct (scrape_sok_direct _ _ _) as [sok_deals wa].
    destruct (scrape_bim_direct _ _ _) as [bim_deals wb].
    destruct (scrape_a101_direct _ _ _) as [a101_deals wc].
    cbn [fst snd deals total_deals by_market] in *. split; [done|lia].
  - cbn [fst snd deals total_deals by_market] in *. split; [done|lia].
Qed.

(** X17. The requests of a market run are bounded.  [main] asks for each
    market's page of the aggregator, and for the three direct pages only
    when the aggregator gave no deal; each page costs at least one request
    and at most [max_retries + 1].  So a run makes between
    [len(markets)] and [(len(markets) + 3) * (max_retries + 1)] requests
    (3 to 24 with [CONFIG]), and then writes the results, the last thing
    it does. *)
Theorem market_run_request_budget :
  ∀ (cfg : Config) (w : MWorld),
    ∃ evs,
      trace (main cards_aggregator cards_sok cards_bim cards_a101 cfg w).2
      = trace w ++ evs
        ++ [EvWrite (output_file cfg)
              (main cards_aggregator cards_sok cards_bim cards_a101 cfg w).1]
      ∧ (length (markets cfg) ≤ requests evs
         ≤ (length (markets cfg) + 3) * (max_retries cfg + 1))%nat
      ∧ ((∃ d, d ∈ deals (main cards_aggregator cards_sok cards_bim cards_a101 cfg w).1
               ∧ source d = "aktuel-urunler.com"%string) →
         (requests evs ≤ length (markets cfg) * (max_retries cfg + 1))%nat).
Proof.
  intros cfg w. unfold main.
  destruct (scrape_all_markets_run cfg w) as (evs & Ht & Hcases).
  destruct (scrape_all_markets _ _ _ _ cfg w) as [results w1].
  cbn [fst snd] in *. exists evs.
  split.
  { unfold save_results, write_file, emit. cbn [trace]. by rewrite Ht, <- app_assoc. }
  destruct Hcases as [[Hagg Hn]|[Hdirect Hn]].
  - split; [lia|]. intros _. lia.
  - split; [lia|]. intros (d & Hin & Hsrc).
    rewrite Forall_forall in Hdirect. specialize (Hdirect d Hin).
    rewrite Hsrc in Hdirect. exfalso.
    repeat (apply elem_of_cons in Hdirect as [Hdirect|Hdirect]; [by inversion Hdirect|]).
    by apply elem_of_nil in Hdirect.
Qed.

(** X18. The results never mix the two strategies.  Either every deal
    comes from the aggregator, labelled with the upper-cased name of a
    configured market, or none does and every deal comes from a market's
    own site under that market's name: the direct scrapers run only when
    the aggregator gave nothing. *)
Theorem results_come_from_one_strategy :
  ∀ (cfg : Config) (w : MWorld),
    let results :=
      (scrape_all_markets cards_aggregator cards_sok cards_bim cards_a101 cfg w).1 in
    Forall (λ d, market d ∈ upper <$> markets cfg
                 ∧ source d = "aktuel-urunler.com"%string) (deals results)
    ∨ Forall (λ d, (market d, source d)
                   ∈ [("SOK", "kurumsal.sokmarket.com.tr"); ("BIM", "bim.com.tr");
                      ("A101", "a101.com.tr")]%string) (deals results).
Proof.
  intros cfg w results.
  destruct (scrape_all_markets_run cfg w) as (evs & _ & [[H _]|[H _]]);
    [by left|by right].
Qed.

End MarketFacts.

(** ** Concrete runs of the further properties *)

Lemma a_fetch_returns_the_body_of_a_200_witness :
  ∃ consumed resp,
    [TimedOut; listing_ok [] None; Failed]
    = consumed ++ Resp resp
      :: net (Reddit._fetch_json demo_url
                {| net := [TimedOut; listing_ok [] None; Failed]; trace := [] |}).2
    ∧ status resp = 200 ∧ body resp = Some (Reddit.Listing [] None)
    ∧ (length consumed < 3)%nat
    ∧ Forall (λ r, is_Some (retry_wait r)) consumed.
Proof.
  destruct a_fetch_returns_the_body_of_a_200 as [Hreddit _].
  exact (Hreddit demo_url {| net := [TimedOut; listing_ok [] None; Failed]; trace := [] |}
           (Reddit.Listing [] None) eq_refl).
Defined.

Lemma small_runs_checkpoint_only_at_the_end_witness :
  ∃ evs,
    trace (world_of (Reddit.scrape utc demo_config
                       {| Reddit.posts := []; Reddit.seen_ids := {[KStr "a"%string]} |}
                       {| net := demo_script; trace := [] |}))
    = [] ++ evs
    ∧ filter (λ e, is_write e = true) evs
      = [EvWrite "checkpoint.json"%string
           (Reddit.DocCheckpoint
              {[KStr "a"%string; KStr "b"%string; KStr "c"%string]} 2)].
Proof.
  destruct (small_runs_checkpoint_only_at_the_end utc demo_config {[KStr "a"%string]}
              {| net := demo_script; trace := [] |}) as (evs & Ht & Hw).
  { apply Nat.ltb_lt. vm_compute. reflexivity. }
  exists evs. split; [exact Ht|].
  rewrite Hw. vm_compute. reflexivity.
Defined.

Lemma missing_timestamp_key_ends_the_run_witness :
  Reddit.main utc demo_args "0"%string Reddit.Absent
    {| net := listing_ok ([thing "a" jan_2]
                          ++ Reddit.Thing (KStr "b"%string) Reddit.TsMissing "b"%string
                             :: [thing "c" jan_2])
                (Some "t3_c"%string)
              :: [listing_ok [thing "d" jan_2] None];
       trace := [] |}
  = Reddit.Raised
      {| Reddit.posts := [] ++ [demo_post "a" jan_2];
         Reddit.seen_ids := {[KStr "a"%string]} ∪ ∅ |}
      {| net := [listing_ok [thing "d" jan_2] None];
         trace := [] ++ [EvGet (Reddit.page_url
                                  (Reddit.listing_url "python"%string "new"%string)
                                  None None)] |}.
Proof.
  apply (missing_timestamp_key_ends_the_run utc demo_args "0"%string Reddit.Absent
           Reddit.default_checkpoint ∅ [thing "a" jan_2] (KStr "b"%string) "b"%string
           [thing "c" jan_2] (Some "t3_c"%string) [listing_ok [thing "d" jan_2] None] []
           (1, 1)%nat).
  - reflexivity.
  - reflexivity.
  - apply (bool_decide_unpack _). vm_compute. exact I.
Defined.


Lemma pagination_follows_the_cursors_witness :
  ∃ n m' evs,
    Reddit.paginate utc demo_config "u"%string None None 0 0
      {| Reddit.posts := []; Reddit.seen_ids := ∅ |}
      {| net := cursor_script; trace := [] |}
    = Reddit.Returned n m' {| net := []; trace := [] ++ evs |}
    ∧ filter (λ e, is_get e = true) evs
      = (λ cursor, EvGet (Reddit.page_url "u"%string cursor None))
        <$> [None; Some "A"%string; Some "B"%string; Some "C"%string].
Proof.
  apply (pagination_follows_the_cursors utc demo_config "u"%string None
           [([thing "p0" jan_2], Some "A"%string);
            ([thing "pA" jan_2], Some "B"%string);
            ([thing "pB" jan_2], Some "C"%string)]
           None 0%nat 0%nat {| Reddit.posts := []; Reddit.seen_ids := ∅ |}
           [thing "pC" jan_2] None [] []).
  - repeat (constructor; [repeat split; discriminate|]). constructor.
  - discriminate.
  - reflexivity.
  - reflexivity.
Defined.

Lemma by_market_counts_add_up_witness :
  Market.total_deals
    (Market.scrape_all_markets (λ _, [("milk", "10 TL")]%string) (λ _, []) (λ _, [])
       (λ _, []) Market.CONFIG
       {| net := [Resp (mkResponse 200 RaAbsent (Some "<html>"%string))];
          trace := [] |}).1
  = (1 + 0 + 0)%nat.
Proof.
  destruct (by_market_counts_add_up (λ _, [("milk", "10 TL")]%string) (λ _, []) (λ _, [])
              (λ _, []) Market.CONFIG
              {| net := [Resp (mkResponse 200 RaAbsent (Some "<html>"%string))];
                 trace := [] |}) as [_ Hsum].
  - apply (bool_decide_unpack _). vm_compute. exact I.
  - etrans; [exact Hsum|]. vm_compute. reflexivity.
Defined.
